(** * mp2p_icp: the ICP registration engine and the point-layer matcher

    A shallow embedding of
      - [ICP_Base::align] and [ICP_Base::prepareMatchingParams]
        (src/ICP_Base.cpp, include/mp2p_icp/ICP_Base.h),
      - [ICP_Horn_MultiCloud::impl_ICP_iteration] (ICP_Horn_MultiCloud.cpp),
      - [Matcher_Points_Base::match] and
        [Matcher_Points_Base::transform_local_to_global]
        (Matcher_Points_Base.cpp),
    followed by the properties of the engine that are stated in the design
    document of the library.

    Conventions.
      - C++ exceptions (the ASSERT_ macros of MRPT, [std::map::at]) are
        the results [Throw] of the monad [result]; what C++ leaves
        undefined (an empty pointer that is dereferenced, an index past the
        end of a buffer) is the result [UB], which is no exception.
      - A [std::map] that is iterated is an association list in key order;
        one that is only looked up is a [gmap].
      - [double] and [float] are abstract types with the operations the
        code applies to them (classes [Scalar] and [Coord]); every theorem
        holds for each interpretation of them, IEEE-754 included.
      - The rigid-pose algebra of MRPT (composition, inverse, SE(3)
        logarithm, norm of a block) is the class [PoseOps].
      - Virtual functions are class methods: [ICP_Algorithm] for
        [impl_ICP_iteration], [LayerMatcher] for [implMatchOneLayer]. *)

From Stdlib Require Import ZArith Lia Bool.
From stdpp Require Import gmap strings list fin_maps.

Local Open Scope string_scope.
Local Open Scope list_scope.

(** ** Exceptions *)

Inductive exn : Type :=
  | AssertionFailed (what : string)   (* ASSERT_, ASSERT_EQUAL_ *)
  | OutOfRange (key : string).        (* std::map::at on a missing key *)

(** What C++ leaves undefined. Nothing is thrown there and nothing is known
    of the run from there on: the embedding stops. *)
Inductive undefined_behaviour : Type :=
  | NullPointer                       (* dereference of an empty Ptr *)
  | IndexOutOfBounds (i : nat).       (* operator[] past the end of a buffer *)

(** How a call ends: it returns, it throws, or it runs into undefined
    behaviour. *)
Inductive result (A : Type) : Type :=
  | Ok (a : A)
  | Throw (e : exn)
  | UB (u : undefined_behaviour).
Arguments Ok {A} a.
Arguments Throw {A} e.
Arguments UB {A} u.

#[export] Instance result_ret : MRet result := fun A a => Ok a.
#[export] Instance result_bind : MBind result := fun A B f m =>
  match m with
  | Ok a => f a
  | Throw e => Throw e
  | UB u => UB u
  end.

Definition ASSERT_ (what : string) (cond : bool) : result unit :=
  if cond then Ok tt else Throw (AssertionFailed what).

Definition is_Ok {A} (r : result A) : bool :=
  match r with Ok _ => true | Throw _ | UB _ => false end.

(** A loop [for (const auto& kv : m) body] whose body may throw. *)
Fixpoint for_each {A S : Type} (body : S → A → result S) (l : list A) (s : S)
  : result S :=
  match l with
  | [] => Ok s
  | x :: l' => s' ← body s x; for_each body l' s'
  end.

(** ** Numbers *)

(** [double], with the operations and literals the engine uses. *)
Class Scalar : Type := {
  double : Type;
  d_zero : double;                       (* 0, 0. *)
  d_one : double;                        (* 1.0 *)
  d_two : double;                        (* 2.0 *)
  d_add : double → double → double;      (* + *)
  d_abs : double → double;               (* std::abs *)
  d_ltb : double → double → bool;        (* < *)
}.

(** [float], the coordinate type of the point buffers.
    Modelled from the spec: the initial corners of the bounding box are set
    in Matcher_Points_Base.h, which is not part of the sources at hand; they
    are the two parameters [f_bbox_min0] and [f_bbox_max0]. *)
Class Coord : Type := {
  float : Type;
  f_ltb : float → float → bool;
  f_zero : float;                        (* a value-initialised float *)
  f_bbox_min0 : float;
  f_bbox_max0 : float;
}.

(** [mrpt::keep_max(var, val)]: [if (val > var) var = val]. *)
Definition keep_max `{Coord} (var val : float) : float :=
  if f_ltb var val then val else var.
(** [mrpt::keep_min(var, val)]: [if (val < var) var = val]. *)
Definition keep_min `{Coord} (var val : float) : float :=
  if f_ltb val var then val else var.

(** [size_t] arithmetic: 64-bit, wrapping. *)
Definition SIZE_MAX1 : Z := 2 ^ 64.
Definition size_t_sub (a b : Z) : Z := (a - b) mod SIZE_MAX1.

(** The value conversion to [unsigned int] (32 bits). *)
Definition to_unsigned (z : Z) : Z := z mod 2 ^ 32.

(** ** Points, clouds and poses *)

Record TPoint3Df `{Coord} : Type := mkPoint { px : float; py : float; pz : float }.
Arguments mkPoint {_} px py pz.

(** [mrpt::maps::CPointsMap]: three parallel coordinate buffers of one
    length, here one list of points. *)
Abbreviation CPointsMap := (list TPoint3Df).

(** Modelled from the spec: pointcloud.h is not part of the sources at hand.
    A plane patch is a centroid, a normal and an offset; the engine only
    tests the sequence of planes for emptiness. *)
Record plane_patch_t `{Coord} : Type := mkPlane {
  centroid : TPoint3Df;
  normal : TPoint3Df;
  plane_offset : float;
}.
Arguments mkPlane {_} centroid normal plane_offset.

(** [pointcloud_t]. [point_layers] is a [std::map<std::string, Ptr>]; its
    iteration order is the order of the list, and an empty [Ptr] is [None]. *)
Record pointcloud_t `{Coord} : Type := mkCloud {
  point_layers : list (string * option CPointsMap);
  planes : list plane_patch_t;
}.
Arguments mkCloud {_} point_layers planes.

Fixpoint layers_find {V} (m : list (string * V)) (k : string) : option V :=
  match m with
  | [] => None
  | (k', v) :: m' => if String.eqb k' k then Some v else layers_find m' k
  end.

Definition layers_count {V} (m : list (string * V)) (k : string) : nat :=
  match layers_find m k with Some _ => 1 | None => 0 end.

Definition layers_at {V} (m : list (string * V)) (k : string) : result V :=
  match layers_find m k with
  | Some v => Ok v
  | None => Throw (OutOfRange k)
  end.

(** [ptr->size()]: undefined on an empty [Ptr]. *)
Definition ptr_size `{Coord} (ptr : option CPointsMap) : result nat :=
  match ptr with
  | Some m => Ok (length m)
  | None => UB NullPointer
  end.

(** The pose algebra of MRPT that the engine calls. *)
Class PoseOps `{Scalar} `{Coord} : Type := {
  TPose3D : Type;
  CPose3D : Type;
  CPose3D_new : CPose3D;                           (* CPose3D() *)
  CPose3D_of_TPose3D : TPose3D → CPose3D;
  pose_compose : CPose3D → CPose3D → CPose3D;      (* a + b *)
  pose_inverse : CPose3D → CPose3D;
  SE3_log : CPose3D → list double;                 (* Lie::SE<3>::log *)
  norm : list double → double;                     (* Eigen's norm() *)
  composePoint : CPose3D → TPoint3Df → TPoint3Df;
}.

(** [a - b] on [CPose3D] is the inverse composition: the pose [a] seen from
    [b], that is the inverse of [b] composed with [a]. *)
Definition pose_minus `{PoseOps} (a b : CPose3D) : CPose3D :=
  pose_compose (pose_inverse b) a.

(** [v.blockCopy<3,1>(r, 0)] on a 6-vector. *)
Definition blockCopy3 {A} (r : nat) (v : list A) : list A := take 3 (drop r v).

(** ** Pairings *)

(** Modelled from the spec: Pairings.h is not part of the sources at hand.
    A [Pairings] value is an ordered sequence of point-point pairings (index
    in the global layer, index in the local layer), an ordered sequence of
    (pairing count, weight) records, and the plane-plane and point-plane
    pairings; [empty()] holds when every sequence of pairings is empty. *)
Record Pairings `{Scalar} : Type := mkPairings {
  paired_points : list (nat * nat);
  point_weights : list (Z * double);
  paired_planes : list (nat * nat);
  paired_pt2pl : list (nat * nat);
}.

Definition Pairings_new `{Scalar} : Pairings :=
  {| paired_points := []; point_weights := [];
     paired_planes := []; paired_pt2pl := [] |}.

Definition is_nil {A} (l : list A) : bool :=
  match l with [] => true | _ => false end.

Definition Pairings_empty `{Scalar} (q : Pairings) : bool :=
  is_nil (paired_points q) && is_nil (paired_planes q) && is_nil (paired_pt2pl q).

(** ** Parameters, results and the state of one call *)

(** [mrpt::maps::TMatchingParams], the fields that the engine writes. *)
Record TMatchingParams `{Scalar} : Type := mkMP {
  maxDistForCorrespondence : double;
  maxAngularDistForCorrespondence : double;
  onlyKeepTheClosest : bool;
  onlyUniqueRobust : bool;
  decimation_other_map_points : Z;
  offset_other_map_points : Z;
}.

(** [mrpt::maps::TMatchingExtraResults], the field that the engine reads. *)
Record TMatchingExtraResults `{Scalar} : Type := mkMRes {
  correspondencesRatio : double;
}.

(** [Parameters], the fields that the engine reads (Parameters.h is not part
    of the sources at hand; [WeightParameters] is opaque to the engine). *)
Record Parameters `{Scalar} {WeightParameters : Type} : Type := mkParams {
  maxIterations : nat;
  thresholdDist : double;
  thresholdAng : double;
  maxPairsPerLayer : nat;
  minAbsStep_trans : double;
  minAbsStep_rot : double;
  weight_pt2pt_layers : gmap string double;
  pairingsWeightParameters : WeightParameters;
}.
Arguments Parameters {_} WeightParameters.

(** Modelled from the spec: IterTermReason.h is not part of the sources at
    hand. The three reasons that [align] assigns, and [Undefined] for the
    value of a fresh [Results] to which no reason has been assigned. *)
Inductive IterTermReason : Type :=
  | Undefined
  | NoPairings
  | MaxIterations
  | Stalled.

#[export] Instance IterTermReason_eq_dec : EqDecision IterTermReason.
Proof. solve_decision. Defined.

Record Results `{PoseOps} : Type := mkResults {
  optimal_tf_mean : CPose3D;
  optimal_scale : double;
  nIterations : nat;
  terminationReason : IterTermReason;
  goodness : double;
}.

(** Modelled from the spec: Results.h is not part of the sources at hand.
    [Results()]: no iteration, no reason, goodness 0; [align] overwrites the
    pose and the scale before it returns. *)
Definition Results_new `{PoseOps} : Results :=
  {| optimal_tf_mean := CPose3D_new; optimal_scale := d_one; nIterations := 0;
     terminationReason := Undefined; goodness := d_zero |}.

(** [ICP_Base::ICP_State]. The maps [mps] and [mres] are the ones that
    ICP_Base.cpp reads and writes. *)
Record ICP_State `{PoseOps} : Type := mkState {
  pc1 : pointcloud_t;
  pc2 : pointcloud_t;
  layerOfLargestPc : string;
  currentPairings : Pairings;
  current_solution : CPose3D;
  current_scale : double;
  mps : gmap string TMatchingParams;
  mres : gmap string TMatchingExtraResults;
}.

(** The constructor [ICP_State(pcs1, pcs2)] with its member initialisers. *)
Definition ICP_State_new `{PoseOps} (pcs1 pcs2 : pointcloud_t) (pose0 : CPose3D)
  : ICP_State :=
  {| pc1 := pcs1; pc2 := pcs2; layerOfLargestPc := EmptyString;
     currentPairings := Pairings_new; current_solution := pose0;
     current_scale := d_one; mps := ∅; mres := ∅ |}.

Definition set_current_solution `{PoseOps} (x : CPose3D) (s : ICP_State) : ICP_State :=
  {| pc1 := pc1 s; pc2 := pc2 s; layerOfLargestPc := layerOfLargestPc s;
     currentPairings := currentPairings s; current_solution := x;
     current_scale := current_scale s; mps := mps s; mres := mres s |}.

Definition set_currentPairings `{PoseOps} (x : Pairings) (s : ICP_State) : ICP_State :=
  {| pc1 := pc1 s; pc2 := pc2 s; layerOfLargestPc := layerOfLargestPc s;
     currentPairings := x; current_solution := current_solution s;
     current_scale := current_scale s; mps := mps s; mres := mres s |}.

Definition set_layerOfLargestPc `{PoseOps} (x : string) (s : ICP_State) : ICP_State :=
  {| pc1 := pc1 s; pc2 := pc2 s; layerOfLargestPc := x;
     currentPairings := currentPairings s; current_solution := current_solution s;
     current_scale := current_scale s; mps := mps s; mres := mres s |}.

Definition set_mps `{PoseOps} (x : gmap string TMatchingParams) (s : ICP_State)
  : ICP_State :=
  {| pc1 := pc1 s; pc2 := pc2 s; layerOfLargestPc := layerOfLargestPc s;
     currentPairings := currentPairings s; current_solution := current_solution s;
     current_scale := current_scale s; mps := x; mres := mres s |}.

Definition set_mres `{PoseOps} (x : gmap string TMatchingExtraResults) (s : ICP_State)
  : ICP_State :=
  {| pc1 := pc1 s; pc2 := pc2 s; layerOfLargestPc := layerOfLargestPc s;
     currentPairings := currentPairings s; current_solution := current_solution s;
     current_scale := current_scale s; mps := mps s; mres := x |}.

(** [ICP_Base::ICP_iteration_result] *)
Record ICP_iteration_result `{PoseOps} : Type := mkIter {
  success : bool;
  new_solution : CPose3D;
  new_scale : double;
}.

(** The pure virtual [impl_ICP_iteration(state, p, out)]: it may change the
    state it is given, fills [out], and may throw. *)
Class ICP_Algorithm `{PoseOps} (WeightParameters : Type) : Type := {
  impl_ICP_iteration :
    ICP_State → Parameters WeightParameters → result (ICP_State * ICP_iteration_result);
}.

(** Constants of the libraries that the engine refers to: the reserved layer
    name [pointcloud_t::PT_LAYER_PLANE_CENTROIDS] (pointcloud.h) and the
    default-constructed [TMatchingParams] of MRPT, which [std::map::operator[]]
    inserts for a new key. *)
Class EngineConsts `{Scalar} : Type := {
  PT_LAYER_PLANE_CENTROIDS : string;
  TMatchingParams_default : TMatchingParams;
}.

Definition set_nIterations `{PoseOps} (x : nat) (r : Results) : Results :=
  {| optimal_tf_mean := optimal_tf_mean r; optimal_scale := optimal_scale r;
     nIterations := x; terminationReason := terminationReason r;
     goodness := goodness r |}.

Definition set_terminationReason `{PoseOps} (x : IterTermReason) (r : Results) : Results :=
  {| optimal_tf_mean := optimal_tf_mean r; optimal_scale := optimal_scale r;
     nIterations := nIterations r; terminationReason := x;
     goodness := goodness r |}.

Definition set_goodness `{PoseOps} (x : double) (r : Results) : Results :=
  {| optimal_tf_mean := optimal_tf_mean r; optimal_scale := optimal_scale r;
     nIterations := nIterations r; terminationReason := terminationReason r;
     goodness := x |}.

Definition set_optimal `{PoseOps} (tf : CPose3D) (scale : double) (r : Results) : Results :=
  {| optimal_tf_mean := tf; optimal_scale := scale;
     nIterations := nIterations r; terminationReason := terminationReason r;
     goodness := goodness r |}.

(** [m.count(k)] and [m.at(k)] on a [std::map] kept as a [gmap]. *)
Definition map_count {V} (m : gmap string V) (k : string) : nat :=
  match m !! k with Some _ => 1 | None => 0 end.

Definition map_at {V} (m : gmap string V) (k : string) : result V :=
  match m !! k with
  | Some v => Ok v
  | None => Throw (OutOfRange k)
  end.

(** ** ICP_Base.cpp *)

(** The decimation of an ordinary layer:
    [std::max(1U, static_cast<unsigned>(size / (1.0 * maxPairsPerLayer)))].
    The quotient of the two doubles is truncated towards zero by the cast,
    which is [÷] on [Z] within [decimation_in_range] below. Outside that
    range the cast of the source is undefined (a quotient that is infinite,
    not a number, or not below 2^32), and the value here is not the
    source's: what is proved of the stride of a layer with points assumes
    the range. *)
Definition decimation_for (size maxPairs : nat) : Z :=
  Z.max 1 (Z.of_nat size ÷ Z.of_nat maxPairs).

(** The operands for which the expression of the source is defined and
    [decimation_for] is its value: a divisor that is not 0, two operands
    whose quotient in [double] has the integer part of the exact quotient
    (their sum is below 2^53), and a quotient that [unsigned] holds (it is
    below 2^32). *)
Definition decimation_in_range (size maxPairs : nat) : Prop :=
  (0 < Z.of_nat maxPairs ∧
   Z.of_nat size + Z.of_nat maxPairs < 2 ^ 53 ∧
   Z.of_nat size / Z.of_nat maxPairs < 2 ^ 32)%Z.

Inductive loop_ctl `{PoseOps} : Type :=
  | Break (res : Results) (state : ICP_State)
  | Continue (state : ICP_State) (prev_solution : CPose3D).

Section Engine.
Context `{PoseOps} `{!EngineConsts} {WP : Type} `{!ICP_Algorithm WP}.

Implicit Types (p : Parameters WP) (state : ICP_State) (res : Results).

(** Body of the loop that counts the points of the layers listed in
    [weight_pt2pt_layers] (lines 45-52). *)
Definition count_layer (pcs2 : pointcloud_t) p (acc : nat * nat)
    (kv1 : string * option CPointsMap) : result (nat * nat) :=
  if Nat.eqb (map_count (weight_pt2pt_layers p) kv1.1) 0 then Ok acc
  else
    n1 ← ptr_size kv1.2;
    l2 ← layers_at (point_layers pcs2) kv1.1;
    n2 ← ptr_size l2;
    Ok (acc.1 + n1, acc.2 + n2).

(** Body of the loop of [prepareMatchingParams]; the accumulator holds
    [pointCountLargestPc] and the state. *)
Definition prepare_layer p (acc : nat * ICP_State)
    (kv1 : string * option CPointsMap) : result (nat * ICP_State) :=
  let '(pointCountLargestPc, state) := acc in
  let is_layer_of_planes := String.eqb kv1.1 PT_LAYER_PLANE_CENTROIDS in
  (* mp = state.mps[kv1.first] creates the entry *)
  let mp := default TMatchingParams_default (mps state !! kv1.1) in
  let state := set_mps (<[kv1.1 := mp]> (mps state)) state in
  if negb is_layer_of_planes then
    if Nat.eqb (map_count (weight_pt2pt_layers p) kv1.1) 0
    then Ok (pointCountLargestPc, state)
    else
      match kv1.2 with
      | None => Throw (AssertionFailed "m1")
      | Some m1 =>
          let '(pointCountLargestPc, state) :=
            if Nat.ltb pointCountLargestPc (length m1)
            then (length m1, set_layerOfLargestPc kv1.1 state)
            else (pointCountLargestPc, state) in
          let mp :=
            {| maxDistForCorrespondence := thresholdDist p;
               maxAngularDistForCorrespondence := thresholdAng p;
               onlyKeepTheClosest := true;
               onlyUniqueRobust := false;
               decimation_other_map_points :=
                 decimation_for (length m1) (maxPairsPerLayer p);
               offset_other_map_points := 0 |} in
          Ok (pointCountLargestPc, set_mps (<[kv1.1 := mp]> (mps state)) state)
      end
  else
    let mp :=
      {| maxDistForCorrespondence := d_add (thresholdDist p) d_two;
         maxAngularDistForCorrespondence := d_zero;
         onlyKeepTheClosest := true;
         onlyUniqueRobust := onlyUniqueRobust mp;
         decimation_other_map_points := 1;
         offset_other_map_points := offset_other_map_points mp |} in
    Ok (pointCountLargestPc, set_mps (<[kv1.1 := mp]> (mps state)) state).

Definition prepareMatchingParams state p : result ICP_State :=
  acc ← for_each (prepare_layer p) (point_layers (pc1 state)) (0, state);
  Ok acc.2.

(** The convergence test of lines 87-100 on the pose just adopted. *)
Definition small_step p (current prev_solution : CPose3D) : bool :=
  let deltaSol := pose_minus current prev_solution in
  let dSol := SE3_log deltaSol in
  let delta_xyz := norm (blockCopy3 0 dSol) in
  let delta_rot := norm (blockCopy3 3 dSol) in
  d_ltb (d_abs delta_xyz) (minAbsStep_trans p) &&
  d_ltb (d_abs delta_rot) (minAbsStep_rot p).

(** One pass through the body of the main loop (lines 70-106). *)
Definition iteration_body p res state (prev_solution : CPose3D)
  : result loop_ctl :=
  '(state, iter_result) ← impl_ICP_iteration state p;
  if negb (success iter_result) then
    Ok (Break (set_goodness d_zero (set_terminationReason NoPairings res)) state)
  else
    let state := set_current_solution (new_solution iter_result) state in
    if small_step p (current_solution state) prev_solution
    then Ok (Break (set_terminationReason Stalled res) state)
    else Ok (Continue state (current_solution state)).

(** The main loop; [fuel] is [maxIterations - nIterations], the number of
    passes left before the loop condition fails. *)
Fixpoint icp_loop (fuel : nat) p res state (prev_solution : CPose3D)
  : result (Results * ICP_State) :=
  match fuel with
  | 0 => Ok (res, state)
  | S fuel' =>
      ctl ← iteration_body p res state prev_solution;
      match ctl with
      | Break res' state' => Ok (res', state')
      | Continue state' prev' =>
          icp_loop fuel' p (set_nIterations (S (nIterations res)) res) state' prev'
      end
  end.

(** Lines 35-65: the checks, the fresh [Results], the initial state and
    [prepareMatchingParams]. *)
Definition align_begin (pcs1 pcs2 : pointcloud_t) (init_guess_m2_wrt_m1 : TPose3D)
    p : result (Results * ICP_State * CPose3D) :=
  _ ← ASSERT_ "pcs1.point_layers.size()==pcs2.point_layers.size()"
        (Nat.eqb (length (point_layers pcs1)) (length (point_layers pcs2)));
  _ ← ASSERT_ "!pcs1.point_layers.empty() || (!pcs1.planes.empty() && !pcs2.planes.empty())"
        (negb (is_nil (point_layers pcs1)) ||
         (negb (is_nil (planes pcs1)) && negb (is_nil (planes pcs2))));
  let pose0 := CPose3D_of_TPose3D init_guess_m2_wrt_m1 in
  let res := Results_new in
  counts ← for_each (count_layer pcs2 p) (point_layers pcs1) (0, 0);
  _ ← ASSERT_ "pointcount1 > 0 || !pcs1.planes.empty()"
        (Nat.ltb 0 counts.1 || negb (is_nil (planes pcs1)));
  _ ← ASSERT_ "pointcount2 > 0 || !pcs2.planes.empty()"
        (Nat.ltb 0 counts.2 || negb (is_nil (planes pcs2)));
  let state := ICP_State_new pcs1 pcs2 pose0 in
  let prev_solution := current_solution state in
  state ← prepareMatchingParams state p;
  Ok (res, state, prev_solution).

(** Lines 109-119: what follows the loop. *)
Definition align_end p res state : result Results :=
  let res :=
    if Nat.leb (maxIterations p) (nIterations res)
    then set_terminationReason MaxIterations res else res in
  res ← (if negb (String.eqb (layerOfLargestPc state) EmptyString) then
           mr ← map_at (mres state) (layerOfLargestPc state);
           Ok (set_goodness (correspondencesRatio mr) res)
         else Ok res);
  Ok (set_optimal (current_solution state) (current_scale state) res).

Definition align (pcs1 pcs2 : pointcloud_t) (init_guess_m2_wrt_m1 : TPose3D) p
  : result Results :=
  '(res, state, prev_solution) ← align_begin pcs1 pcs2 init_guess_m2_wrt_m1 p;
  '(res, state) ← icp_loop (maxIterations p - nIterations res) p res state prev_solution;
  align_end p res state.

End Engine.

(** ** ICP_Horn_MultiCloud.cpp *)

(** The result of the closed-form solver ([OptimalTF_Result]). *)
Record OptimalTF_Result `{PoseOps} : Type := mkTF {
  optimal_pose : TPose3D;
  tf_optimal_scale : double;
}.

(** What [ICP_Horn_MultiCloud::impl_ICP_iteration] calls and that is not
    part of the sources at hand: [ICP_Base::runMatchers], which takes the
    state by reference, and the solver [optimal_tf_horn]. *)
Class HornCollaborators `{PoseOps} (WeightParameters : Type) : Type := {
  runMatchers : ICP_State → result (ICP_State * Pairings);
  optimal_tf_horn : Pairings → WeightParameters → result OptimalTF_Result;
}.

Section Horn.
Context `{PoseOps} {WP : Type} `{!HornCollaborators WP}.

(** The [ICP_iteration_result] that [align] default-constructs and hands
    to the iteration. *)
Definition ICP_iteration_result_new : ICP_iteration_result :=
  {| success := false; new_solution := CPose3D_new; new_scale := d_one |}.

Definition Horn_impl_ICP_iteration (s : ICP_State) (p : Parameters WP)
  : result (ICP_State * ICP_iteration_result) :=
  let out := ICP_iteration_result_new in
  _ ← ASSERT_ "s.pc1.point_layers.size()==s.pc2.point_layers.size()"
        (Nat.eqb (length (point_layers (pc1 s))) (length (point_layers (pc2 s))));
  _ ← ASSERT_ "!s.pc1.point_layers.empty()" (negb (is_nil (point_layers (pc1 s))));
  let nLayers := length (point_layers (pc1 s)) in
  _ ← ASSERT_ "nLayers >= 1" (Nat.leb 1 nLayers);
  '(s, pairings) ← runMatchers s;
  let s := set_currentPairings pairings s in
  if Pairings_empty pairings || Nat.ltb (length (paired_points pairings)) 3 then
    Ok (s, {| success := false; new_solution := new_solution out;
              new_scale := new_scale out |})
  else
    res ← optimal_tf_horn pairings (pairingsWeightParameters p);
    Ok (s, {| success := true;
              new_solution := CPose3D_of_TPose3D (optimal_pose res);
              new_scale := new_scale out |}).

#[export] Instance ICP_Horn_MultiCloud : ICP_Algorithm WP :=
  {| impl_ICP_iteration := Horn_impl_ICP_iteration |}.
End Horn.

(** ** Matcher_Points_Base.cpp *)

(** The pure virtual [implMatchOneLayer(glLayer, lcLayer, localPose, out)];
    [out] is read and written. *)
Class LayerMatcher `{PoseOps} : Type := {
  implMatchOneLayer : CPointsMap → CPointsMap → CPose3D → Pairings → result Pairings;
}.

(** [std::shuffle(first, last, std::default_random_engine(seed))] on a vector
    of indices; [seed] is an [unsigned int]. *)
Class Shuffler : Type := {
  shuffle : Z → list nat → list nat;
}.

Module Matcher_Points_Base.

Definition set_point_weights `{Scalar} (x : list (Z * double)) (q : Pairings)
  : Pairings :=
  {| paired_points := paired_points q; point_weights := x;
     paired_planes := paired_planes q; paired_pt2pl := paired_pt2pl q |}.

(** The result of [transform_local_to_global]; the three coordinate
    buffers [x_locals], [y_locals], [z_locals] are one list of points. *)
Record TransformedLocalPointCloud `{Coord} : Type := mkTLPC {
  localMin : TPoint3Df;
  localMax : TPoint3Df;
  idxs : option (list nat);
  locals : list TPoint3Df;
}.

Section Matcher.
Context `{PoseOps} `{!LayerMatcher}.

(** The contract of [implMatchOneLayer] that [match] relies on: a layer
    appends point pairings to [out] and leaves the weight records
    alone. *)
Definition appends_pairings : Prop :=
  ∀ gl lc pose out out',
    implMatchOneLayer gl lc pose out = Ok out' →
    ∃ new, paired_points out' = paired_points out ++ new ∧
           point_weights out' = point_weights out.

(** The member [weight_pt2pt_layers] of the matcher. *)
Variable weights : gmap string double.

Definition weights_empty : bool := bool_decide (weights = ∅).

(** Body of the loop of [match] (lines 29-59). *)
Definition match_layer (pcLocal : pointcloud_t) (localPose : CPose3D)
    (out : Pairings) (glLayerKV : string * option CPointsMap) : result Pairings :=
  let name := glLayerKV.1 in
  if negb weights_empty && Nat.eqb (map_count weights name) 0 then Ok out
  else
    match layers_find (point_layers pcLocal) name with
    | None => Ok out
    | Some itLocal =>
        match glLayerKV.2, itLocal with
        | None, _ => Throw (AssertionFailed "glLayer")
        | Some _, None => Throw (AssertionFailed "lcLayer")
        | Some glLayer, Some lcLayer =>
            let nBefore := length (paired_points out) in
            out ← implMatchOneLayer glLayer lcLayer localPose out;
            let nAfter := length (paired_points out) in
            if negb weights_empty && negb (Nat.eqb nAfter nBefore) then
              w ← map_at weights name;
              Ok (set_point_weights
                    (point_weights out ++
                       [(size_t_sub (Z.of_nat nAfter) (Z.of_nat nBefore), w)])
                    out)
            else Ok out
        end
    end.

(** The loop of [match] over a sequence of global layers, from a given
    [out]. *)
Definition match_layers (layers : list (string * option CPointsMap))
    (pcLocal : pointcloud_t) (localPose : CPose3D) (out : Pairings)
  : result Pairings :=
  for_each (match_layer pcLocal localPose) layers out.

(** [Matcher_Points_Base::match] *)
Definition match_ (pcGlobal pcLocal : pointcloud_t) (localPose : CPose3D)
  : result Pairings :=
  match_layers (point_layers pcGlobal) pcLocal localPose Pairings_new.

(** The weight records that the design document asks of one layer that
    added the pairings [new]: one record (count of [new], weight of the
    layer) when there are weights and [new] is not empty, none
    otherwise. *)
Definition weight_record (name : string) (new : list (nat * nat))
  : list (Z * double) :=
  if weights_empty || is_nil new then []
  else match weights !! name with
       | Some w => [(Z.of_nat (length new), w)]
       | None => []
       end.

End Matcher.

(** The sum of the pairing counts of a sequence of weight records. *)
Definition sum_counts `{Scalar} (ws : list (Z * double)) : Z :=
  foldr (λ cw acc, (cw.1 + acc)%Z) 0%Z ws.

Section Transform.
Context `{PoseOps} `{!Shuffler}.

(** The contract of [std::shuffle]: the result is a rearrangement of
    the vector. *)
Definition shuffle_permutes : Prop := ∀ seed l, shuffle seed l ≡ₚ l.

Definition set_locals (x : list TPoint3Df) (r : TransformedLocalPointCloud)
  : TransformedLocalPointCloud :=
  {| localMin := localMin r; localMax := localMax r; idxs := idxs r;
     locals := x |}.

Definition set_idxs (x : option (list nat)) (r : TransformedLocalPointCloud)
  : TransformedLocalPointCloud :=
  {| localMin := localMin r; localMax := localMax r; idxs := x;
     locals := locals r |}.

(** A default-constructed [TransformedLocalPointCloud]. *)
Definition TransformedLocalPointCloud_new : TransformedLocalPointCloud :=
  {| localMin := mkPoint f_bbox_min0 f_bbox_min0 f_bbox_min0;
     localMax := mkPoint f_bbox_max0 f_bbox_max0 f_bbox_max0;
     idxs := None; locals := [] |}.

(** [std::vector::resize(n)] *)
Definition resize {A} (n : nat) (x0 : A) (v : list A) : list A :=
  take n (v ++ replicate (n - length v) x0).

Definition lambdaKeepBBox (r : TransformedLocalPointCloud) (g : TPoint3Df)
  : TransformedLocalPointCloud :=
  {| localMax := mkPoint (keep_max (px (localMax r)) (px g))
                         (keep_max (py (localMax r)) (py g))
                         (keep_max (pz (localMax r)) (pz g));
     localMin := mkPoint (keep_min (px (localMin r)) (px g))
                         (keep_min (py (localMin r)) (py g))
                         (keep_min (pz (localMin r)) (pz g));
     idxs := idxs r; locals := locals r |}.

(** The statements shared by the two loops: compose the local point [i]
    with the pose, store it at [ri] and extend the bounding box. *)
Definition transform_point (pcLocal : CPointsMap) (localPose : CPose3D)
    (r : TransformedLocalPointCloud) (ri i : nat)
  : result TransformedLocalPointCloud :=
  match pcLocal !! i with
  | None => UB (IndexOutOfBounds i)
  | Some l =>
      if Nat.ltb ri (length (locals r)) then
        let g := composePoint localPose l in
        Ok (lambdaKeepBBox (set_locals (<[ri := g]> (locals r)) r) g)
      else UB (IndexOutOfBounds ri)
  end.

(** [Matcher_Points_Base::transform_local_to_global]. [now] is the value
    of [system_clock::now().time_since_epoch().count()] at the call. *)
Definition transform_local_to_global (pcLocal : CPointsMap)
    (localPose : CPose3D) (maxLocalPoints : nat) (localPointsSampleSeed : Z)
    (now : Z) : result TransformedLocalPointCloud :=
  let r := TransformedLocalPointCloud_new in
  let nLocalPoints := length pcLocal in
  let origin := mkPoint f_zero f_zero f_zero in
  if Nat.eqb maxLocalPoints 0 || Nat.leb nLocalPoints maxLocalPoints then
    (* all points *)
    let r := set_locals (resize nLocalPoints origin (locals r)) r in
    for_each (λ r i, transform_point pcLocal localPose r i i)
             (seq 0 nLocalPoints) r
  else
    (* random subset *)
    let ix := seq 0 maxLocalPoints in
    let seed :=
      to_unsigned (if negb (Z.eqb localPointsSampleSeed 0)
                   then localPointsSampleSeed else now) in
    let ix := shuffle seed ix in
    let r := set_idxs (Some ix) r in
    let r := set_locals (resize maxLocalPoints origin (locals r)) r in
    for_each (λ r ri,
                match ix !! ri with
                | None => UB (IndexOutOfBounds ri)
                | Some i => transform_point pcLocal localPose r ri i
                end)
             (seq 0 maxLocalPoints) r.

End Transform.
End Matcher_Points_Base.

(** ** Decimated probing *)

(** Modelled from the spec: the correspondence search that consumes
    [decimation_other_map_points] is MRPT's and not part of the sources at
    hand. Decimation is stride-based subsampling of the points of the other
    map, the local cloud: with the offset 0 that [prepareMatchingParams]
    sets, the points probed among the [n] of that map are those at the
    indices 0, stride, 2*stride, ... below [n]. *)
Definition probed_indices (n : nat) (stride : Z) : list nat :=
  filter (λ i, (Z.of_nat i mod stride)%Z = 0%Z) (seq 0 n).

Definition probes_per_iteration (n : nat) (stride : Z) : nat :=
  length (probed_indices n stride).

(** The stride that the design document states: the quotient rounded up. *)
Definition ceil_div (n k : Z) : Z := ((n + k - 1) / k)%Z.

(** ** Matcher_Points_Base::initializeLayerWeights *)

(** A [std::any] as [initializeLayerWeights] sees it: it holds a [double], or
    something else, on which [std::any_cast<double>] throws. *)
Inductive any_value `{Scalar} : Type :=
  | AnyDouble (w : double)
  | AnyOther.

(** A [mrpt::containers::Parameters] node as [initializeLayerWeights] sees
    it: a map from names to values, in the order of [asMap()], or a node for
    which [isMap()] is false. *)
Inductive ContainerParameters `{Scalar} : Type :=
  | ParamMap (entries : list (string * any_value))
  | ParamNotMap.

(** How a call of [initializeLayerWeights] ends. *)
Inductive init_outcome : Type :=
  | Returned
  | ThrewNotMap                      (* ASSERT_(p.isMap()) *)
  | ThrewBadAnyCast (key : string).  (* std::any_cast<double> *)

(** The loop over [p.asMap()]: the weights so far, and how the loop ends. *)
Fixpoint fill_weights `{Scalar} (entries : list (string * any_value))
    (weights : gmap string double) : gmap string double * init_outcome :=
  match entries with
  | [] => (weights, Returned)
  | (ly, AnyDouble w) :: entries' => fill_weights entries' (<[ly := w]> weights)
  | (ly, AnyOther) :: _ => (weights, ThrewBadAnyCast ly)
  end.

(** [Matcher_Points_Base::initializeLayerWeights]: the member
    [weight_pt2pt_layers] after the call, from its value before, and how the
    call ends. *)
Definition initializeLayerWeights `{Scalar} (p : ContainerParameters)
    (weights : gmap string double) : gmap string double * init_outcome :=
  let weights : gmap string double := ∅ in   (* clear() *)
  match p with
  | ParamNotMap => (weights, ThrewNotMap)
  | ParamMap entries => fill_weights entries weights
  end.

(** ** Vocabulary of the properties *)

(** A global layer that [match] hands to [implMatchOneLayer]: it passes the
    filter on the weights and the local cloud has a layer of its name. *)
Definition layer_is_matched `{PoseOps} (weights : gmap string double)
    (pcLocal : pointcloud_t) (kv : string * option CPointsMap) : bool :=
  negb (negb (Matcher_Points_Base.weights_empty weights) &&
        Nat.eqb (map_count weights kv.1) 0) &&
  match layers_find (point_layers pcLocal) kv.1 with
  | Some _ => true
  | None => false
  end.

(** A layer that [align] counts and for which [prepareMatchingParams] writes
    point-to-point parameters: not the layer of plane centroids, and listed
    in the weights. *)
Definition layer_is_counted `{PoseOps} `{!EngineConsts} {WP : Type}
    (p : Parameters WP) (name : string) : bool :=
  negb (String.eqb name PT_LAYER_PLANE_CENTROIDS) &&
  negb (Nat.eqb (map_count (weight_pt2pt_layers p) name) 0).




(** [<] on [float] is a strict order. *)
Definition f_ltb_strict `{Coord} : Prop :=
  (∀ a, f_ltb a a = false) ∧
  (∀ a b c, f_ltb a b = true → f_ltb b c = true → f_ltb a c = true).

(** No coordinate of [g] is below that of [lo] or above that of [hi]. *)
Definition inside_bbox `{Coord} (lo hi g : TPoint3Df) : Prop :=
  f_ltb (px g) (px lo) = false ∧ f_ltb (px hi) (px g) = false ∧
  f_ltb (py g) (py lo) = false ∧ f_ltb (py hi) (py g) = false ∧
  f_ltb (pz g) (pz lo) = false ∧ f_ltb (pz hi) (pz g) = false.

(** The body of the loops of [transform_local_to_global] over the positions
    of the output: position [ri] receives the local point whose index is at
    position [ri] of [ix]. The loop over all the points is the one with the
    indices in their order. *)
Definition store_selected `{PoseOps} (pcLocal : CPointsMap) (localPose : CPose3D)
    (ix : list nat) (r : Matcher_Points_Base.TransformedLocalPointCloud)
    (ri : nat) : result Matcher_Points_Base.TransformedLocalPointCloud :=
  match ix !! ri with
  | None => UB (IndexOutOfBounds ri)
  | Some i => Matcher_Points_Base.transform_point pcLocal localPose r ri i
  end.

(** A coordinate [c] of a corner of the bounding box is its initial value
    [c0] or the coordinate [sel] of one of the points [pts]. *)
Definition corner_attained `{Coord} (c c0 : float) (sel : TPoint3Df → float)
    (pts : list TPoint3Df) : Prop :=
  c = c0 ∨ ∃ g, g ∈ pts ∧ c = sel g.

(** The invariant of the search for the largest layer in
    [prepareMatchingParams], after the layers [seen]: either no counted layer
    seen so far has a point, and the count is 0 and the name is still
    [name0]; or the name is that of a counted layer seen so far, the count is
    its size, and no counted layer seen so far is larger. *)
Definition largest_so_far `{PoseOps} `{!EngineConsts} {WP : Type}
    (p : Parameters WP) (name0 : string)
    (seen : list (string * option CPointsMap)) (n : nat) (name : string) : Prop :=
  (n = 0 ∧ name = name0 ∧
   ∀ name' m', (name', Some m') ∈ seen → layer_is_counted p name' = true →
               length m' = 0)
  ∨ (∃ m, (name, Some m) ∈ seen ∧ layer_is_counted p name = true ∧
          n = length m ∧ (0 < n)%nat ∧
          ∀ name' m', (name', Some m') ∈ seen → layer_is_counted p name' = true →
                      (length m' ≤ n)%nat).

(** ** An exact interpretation, to run the engine on examples

    Numbers are integers, poses are the translations of the integer lattice
    (a subgroup of SE(3) whose logarithm is the translation followed by a
    zero rotation block), and the norm is the integer part of the Euclidean
    norm. *)
Module Lattice.
Local Open Scope Z_scope.

#[export] Instance Scalar_Z : Scalar :=
  {| double := Z; d_zero := 0; d_one := 1; d_two := 2;
     d_add := Z.add; d_abs := Z.abs; d_ltb := Z.ltb |}.

#[export] Instance Coord_Z : Coord :=
  {| float := Z; f_ltb := Z.ltb; f_zero := 0;
     f_bbox_min0 := 2 ^ 127; f_bbox_max0 := - 2 ^ 127 |}.

Definition vec3 : Type := Z * Z * Z.

Definition vadd (a b : vec3) : vec3 :=
  (a.1.1 + b.1.1, a.1.2 + b.1.2, a.2 + b.2).
Definition vneg (a : vec3) : vec3 := (- a.1.1, - a.1.2, - a.2).
Definition sum_sq (v : list Z) : Z := foldr (λ x acc, x * x + acc) 0 v.

#[export] Instance PoseOps_Z : PoseOps :=
  {| TPose3D := vec3; CPose3D := vec3;
     CPose3D_new := (0, 0, 0);
     CPose3D_of_TPose3D := λ t, t;
     pose_compose := vadd;
     pose_inverse := vneg;
     SE3_log := λ t, [t.1.1; t.1.2; t.2; 0; 0; 0];
     norm := λ v, Z.sqrt (sum_sq v);
     composePoint := λ t q,
       mkPoint (px q + t.1.1) (py q + t.1.2) (pz q + t.2) |}.

#[export] Instance EngineConsts_Z : EngineConsts :=
  {| PT_LAYER_PLANE_CENTROIDS := "plane_centroids";
     TMatchingParams_default :=
       {| maxDistForCorrespondence := 0;
          maxAngularDistForCorrespondence := 0;
          onlyKeepTheClosest := true; onlyUniqueRobust := false;
          decimation_other_map_points := 1;
          offset_other_map_points := 0 |} |}.

(** The pairings of two layers by position: point [i] with point [i]. *)
Definition pair_by_index (gl lc : CPointsMap) : list (nat * nat) :=
  (λ i, (i, i)) <$> seq 0 (Nat.min (length gl) (length lc)).

(** A stand-in for [runMatchers]: every layer of the first cloud that the
    second cloud has too is paired by position, and the ratio of paired
    local points is recorded under the name of the layer. *)
Definition run_by_index (s : ICP_State) : result (ICP_State * Pairings) :=
  let step (acc : list (nat * nat) * gmap string TMatchingExtraResults)
           (kv : string * option CPointsMap) :=
    match kv.2, layers_find (point_layers (pc2 s)) kv.1 with
    | Some gl, Some (Some lc) =>
        let new := pair_by_index gl lc in
        (acc.1 ++ new,
         <[kv.1 := {| correspondencesRatio :=
                        Z.of_nat (length new) / Z.of_nat (length lc) |}]> acc.2)
    | _, _ => acc
    end in
  let acc := foldl step ([], mres s) (point_layers (pc1 s)) in
  Ok (set_mres acc.2 s,
      {| paired_points := acc.1; point_weights := [];
         paired_planes := []; paired_pt2pl := [] |}).

(** Collaborators of the Horn iteration whose solver always answers
    [target]. *)
Definition collaborators (target : vec3) : HornCollaborators unit :=
  {| runMatchers := run_by_index;
     optimal_tf_horn := λ _ _,
       Ok {| optimal_pose := target; tf_optimal_scale := 1 |} |}.

Definition horn (target : vec3) : ICP_Algorithm unit :=
  @ICP_Horn_MultiCloud _ _ _ _ (collaborators target).

#[export] Instance LayerMatcher_by_index : LayerMatcher :=
  {| implMatchOneLayer := λ gl lc _ out,
       Ok {| paired_points := paired_points out ++ pair_by_index gl lc;
             point_weights := point_weights out;
             paired_planes := paired_planes out;
             paired_pt2pl := paired_pt2pl out |} |}.

(** A shuffle that reverses the vector for an odd seed. *)
#[export] Instance Shuffler_rev : Shuffler :=
  {| shuffle := λ seed l, if Z.odd seed then rev l else l |}.

Definition pt (x y z : Z) : TPoint3Df := mkPoint x y z.

Definition cloud (layers : list (string * list TPoint3Df)) : pointcloud_t :=
  mkCloud ((λ kv, (kv.1, Some kv.2)) <$> layers) [].

Definition params (maxIt : nat) (maxPairs : nat) (w : list (string * Z))
  : Parameters unit :=
  {| maxIterations := maxIt; thresholdDist := 1; thresholdAng := 0;
     maxPairsPerLayer := maxPairs; minAbsStep_trans := 1; minAbsStep_rot := 1;
     weight_pt2pt_layers := list_to_map w;
     pairingsWeightParameters := tt |}.

(** Parameters with the weight 1 for the layer "raw". *)
Definition weighted (maxPairs : nat) : Parameters unit :=
  params 50 maxPairs [("raw", 1)].

Definition triangle : list TPoint3Df := [pt 0 0 0; pt 1 0 0; pt 0 1 0].
Definition shifted_triangle : list TPoint3Df := [pt 5 (-2) 0; pt 6 (-2) 0; pt 5 (-1) 0].
Definition one_point : list TPoint3Df := [pt 0 0 0].
Definition five_points : list TPoint3Df :=
  [pt 0 0 0; pt 1 0 0; pt 2 0 0; pt 3 0 0; pt 4 0 0].

(** The plane z = 0. *)
Definition ground : plane_patch_t := mkPlane (pt 0 0 0) (pt 0 0 1) 0.

Definition cloud_with_planes (layers : list (string * list TPoint3Df))
  : pointcloud_t :=
  mkCloud ((λ kv, (kv.1, Some kv.2)) <$> layers) [ground].

(** Two clouds of one layer each, under different names, with one plane
    each: as many layers on both sides, but not the same names. *)
Definition cloud_a : pointcloud_t := cloud_with_planes [("a", triangle)].


(** The state of a call on two triangles five units apart, before any
    preparation. *)
Definition triangles_state : ICP_State :=
  ICP_State_new (cloud [("raw", triangle)]) (cloud [("raw", shifted_triangle)])
                (0, 0, 0).

(** The state of a call on two clouds of five points, before any
    preparation. *)
Definition five_state : ICP_State :=
  ICP_State_new (cloud [("raw", five_points)]) (cloud [("raw", five_points)])
                (0, 0, 0).

(** A stand-in for [runMatchers] that pairs by position and records no
    matching result. *)
Definition run_silent (s : ICP_State) : result (ICP_State * Pairings) :=
  match run_by_index s with
  | Ok (_, prs) => Ok (s, prs)
  | Throw e => Throw e
  | UB u => UB u
  end.

Definition horn_silent (target : vec3) : ICP_Algorithm unit :=
  @ICP_Horn_MultiCloud _ _ _ _
    {| runMatchers := run_silent;
       optimal_tf_horn := λ _ _,
         Ok {| optimal_pose := target; tf_optimal_scale := 1 |} |}.

(** The state of a call on [cloud_a] against itself, before any
    preparation. *)
Definition state_a : ICP_State := ICP_State_new cloud_a cloud_a (0, 0, 0).

(** The state of a call on two clouds of one point, after the
    preparation. *)
Definition one_point_prepared : ICP_State :=
  match prepareMatchingParams
          (ICP_State_new (cloud [("raw", one_point)]) (cloud [("raw", one_point)])
                         (0, 0, 0)) (weighted 500) with
  | Ok s => s
  | Throw _ | UB _ => triangles_state
  end.

(** Fifty points on a line. *)
Definition fifty_points : list TPoint3Df :=
  (λ i, pt (Z.of_nat i) 0 0) <$> seq 0 50.

(** An iteration that behaves as the Horn iteration and also writes the
    scale of the state, which it is handed by reference. *)
Definition horn_rescaling (target : vec3) (scale : Z) : ICP_Algorithm unit :=
  {| impl_ICP_iteration := λ s q,
       '(s', it) ← impl_ICP_iteration (ICP_Algorithm := horn target) s q;
       Ok ({| pc1 := pc1 s'; pc2 := pc2 s';
              layerOfLargestPc := layerOfLargestPc s';
              currentPairings := currentPairings s';
              current_solution := current_solution s';
              current_scale := scale; mps := mps s'; mres := mres s' |}, it) |}.


(** Parameters without weights. *)
Definition unweighted : Parameters unit := params 50 500 [].

(** Parameters that allow no iteration. *)
Definition no_iteration : Parameters unit := params 0 500 [("raw", 1)].

(** Parameters with three iterations and thresholds 0 for the stall test. *)
Definition patient : Parameters unit :=
  {| maxIterations := 3; thresholdDist := 1; thresholdAng := 0;
     maxPairsPerLayer := 500; minAbsStep_trans := 0; minAbsStep_rot := 0;
     weight_pt2pt_layers := list_to_map [("raw", 1)];
     pairingsWeightParameters := tt |}.

(** The weight 1 for the layer "raw". *)
Definition raw_weights : gmap string double := list_to_map [("raw", 1)].

(** Two configuration nodes for the weights: one well formed, one with a
    value that is not a double after the first entry. *)
Definition good_entries : list (string * any_value) :=
  [("edges", AnyDouble 2); ("raw", AnyDouble 1)].
Definition good_node : ContainerParameters := ParamMap good_entries.
Definition bad_node : ContainerParameters :=
  ParamMap [("edges", AnyDouble 2); ("planes", AnyOther); ("raw", AnyDouble 1)].

End Lattice.

(** * Properties *)

Local Close Scope string_scope.

(** ** The error monad *)

Lemma bind_Ok {A B} (m : result A) (f : A → result B) (b : B) :
  m ≫= f = Ok b → ∃ a, m = Ok a ∧ f a = Ok b.
Proof. destruct m as [a|e|u]; simpl; [eauto | discriminate..]. Qed.

Lemma bind_Throw {A B} (m : result A) (f : A → result B) (e : exn) :
  m = Throw e → m ≫= f = Throw e.
Proof. intros ->. reflexivity. Qed.

Lemma ASSERT_Ok what cond u : ASSERT_ what cond = Ok u → cond = true.
Proof. destruct cond; [reflexivity | discriminate]. Qed.

(** Inversion of a successful sequence of binds in a hypothesis. *)
Ltac inv_bind H :=
  let a := fresh "a" in
  let Ha := fresh "Ha" in
  apply bind_Ok in H; destruct H as (a & Ha & H).

(** Loops: an invariant of the body is an invariant of the loop, the loop
    over a concatenation is the sequence of the two loops, and a body that
    throws on some element whatever the accumulator makes the loop throw. *)
Lemma for_each_inv {A S} (P : S → Prop) (body : S → A → result S) l : ∀ s s',
  P s → (∀ s x s', P s → x ∈ l → body s x = Ok s' → P s') →
  for_each body l s = Ok s' → P s'.
Proof.
  induction l as [|x l IH]; intros s s' Hs Hstep Hl; simpl in Hl.
  - injection Hl as <-. assumption.
  - inv_bind Hl. apply (IH a s'); [|intros ? ? ? ? ?|assumption].
    + eapply Hstep; [eassumption | left | eassumption].
    + apply Hstep; [assumption | by right].
Qed.

Lemma for_each_app {A S} (body : S → A → result S) l1 l2 s :
  for_each body (l1 ++ l2) s = for_each body l1 s ≫= for_each body l2.
Proof.
  revert s. induction l1 as [|x l1 IH]; intros s; simpl; [reflexivity|].
  destruct (body s x) as [s1|e|u]; simpl; [apply IH | reflexivity..].
Qed.

Lemma for_each_throws {A S} (body : S → A → result S) l x :
  x ∈ l → (∀ s, is_Ok (body s x) = false) → ∀ s, is_Ok (for_each body l s) = false.
Proof.
  intros Hx Hthrow. induction l as [|y l IH]; intros s; [by inversion Hx|].
  simpl. apply elem_of_cons in Hx as [<- | Hx].
  - specialize (Hthrow s). destruct (body s x); [discriminate | reflexivity..].
  - destruct (body s y); simpl; [by apply IH | reflexivity..].
Qed.

(** ** Arithmetic of the decimation stride *)

Section StrideArith.
Local Open Scope Z_scope.

Lemma ceil_div_succ n s : 0 ≤ n → 0 < s →
  ceil_div (n + 1) s = ceil_div n s + (if decide (n mod s = 0) then 1 else 0).
Proof.
  intros Hn Hs. unfold ceil_div.
  replace (n + 1 + s - 1) with (n + s) by lia.
  pose proof (Z.div_mod n s ltac:(lia)) as E.
  pose proof (Z.mod_pos_bound n s Hs) as B.
  case_decide as Hm.
  - rewrite Hm in E.
    assert (E2 : (n + s - 1) / s = n / s).
    { symmetry. apply Z.div_unique with (r := s - 1); lia. }
    rewrite E2. symmetry. apply Z.div_unique with (r := 0); lia.
  - assert (E2 : (n + s - 1) / s = n / s + 1).
    { symmetry. apply Z.div_unique with (r := n mod s - 1); lia. }
    rewrite E2. symmetry. apply Z.div_unique with (r := n mod s); lia.
Qed.

(** Probing every [s]-th index below [n] visits [ceil (n / s)] points. *)
Lemma probes_count n s : 0 < s →
  Z.of_nat (probes_per_iteration n s) = ceil_div (Z.of_nat n) s.
Proof.
  intros Hs. unfold probes_per_iteration, probed_indices.
  induction n as [|n IH].
  - simpl. unfold ceil_div. symmetry. apply Z.div_small. lia.
  - rewrite seq_S. rewrite (filter_app _ (seq 0 n)).
    rewrite length_app, Nat2Z.inj_add, IH. simpl.
    rewrite Nat2Z.inj_succ, <- Z.add_1_r, ceil_div_succ by lia.
    f_equal. rewrite filter_cons, filter_nil.
    repeat case_decide; simpl; try reflexivity; try contradiction; try lia.
Qed.

(** The truncated quotient as a stride, for [0 < K < N]. *)
Lemma floor_stride N K : 0 < K → K < N →
  Z.max 1 (N ÷ K) = N / K ∧ 1 ≤ N / K ∧ (N / K = ceil_div N K ↔ (K | N)).
Proof.
  intros HK HN.
  rewrite Z.quot_div_nonneg by lia.
  assert (Hs : 1 ≤ N / K) by (apply Z.div_le_lower_bound; lia).
  pose proof (Z.div_mod N K ltac:(lia)) as E.
  pose proof (Z.mod_pos_bound N K HK) as B.
  split; [lia|]. split; [lia|]. unfold ceil_div. split.
  - intros Hce.
    pose proof (Z.div_mod (N + K - 1) K ltac:(lia)) as E2.
    pose proof (Z.mod_pos_bound (N + K - 1) K ltac:(lia)) as B2.
    rewrite <- Hce in E2. exists (N / K). nia.
  - intros [c Hc]. subst N. rewrite Z.div_mul by lia.
    apply Z.div_unique with (r := K - 1); lia.
Qed.

(** A stride [s] keeps the probes among [M] points within [K] exactly when
    [M] is at most [K * s]. *)
Lemma ceil_div_le M s K : 0 < s → ceil_div M s ≤ K ↔ M ≤ K * s.
Proof.
  intros Hs. unfold ceil_div.
  pose proof (Z.div_mod (M + s - 1) s ltac:(lia)) as E.
  pose proof (Z.mod_pos_bound (M + s - 1) s Hs) as B.
  split; intros Hle; nia.
Qed.

(** The truncated quotient as a stride covers [N] points in [K] probes
    exactly when [K] divides [N]. *)
Lemma floor_stride_covers N K : 0 < K → 0 ≤ N → N ≤ K * (N / K) ↔ (K | N).
Proof.
  intros HK HN.
  pose proof (Z.div_mod N K ltac:(lia)) as E.
  pose proof (Z.mod_pos_bound N K HK) as B.
  split.
  - intros Hle. exists (N / K). lia.
  - intros [c Hc]. subst N. rewrite Z.div_mul by lia. lia.
Qed.
End StrideArith.

(** ** ICP_Base::prepareMatchingParams *)

Section PrepareFacts.
Context `{PoseOps} `{!EngineConsts} {WP : Type}.

Implicit Types (p : Parameters WP) (state : ICP_State).

(** One layer only writes the entry of its own name in [mps], and possibly
    [layerOfLargestPc]. *)
Lemma prepare_layer_frame p n state kv n' state' :
  prepare_layer p (n, state) kv = Ok (n', state') →
  (∀ k, k ≠ kv.1 → mps state' !! k = mps state !! k) ∧
  current_scale state' = current_scale state ∧
  current_solution state' = current_solution state ∧
  pc1 state' = pc1 state ∧ pc2 state' = pc2 state ∧
  mres state' = mres state.
Proof.
  unfold prepare_layer. intros Hp.
  destruct (negb (String.eqb kv.1 PT_LAYER_PLANE_CENTROIDS)).
  - destruct (Nat.eqb _ 0).
    + injection Hp as <- <-. simpl. split; [|auto].
      intros k Hk. by rewrite lookup_insert_ne.
    + destruct kv.2 as [m1|]; [|discriminate].
      destruct (Nat.ltb n (length m1)); injection Hp as <- <-; simpl;
        (split; [|auto]); intros k Hk; by rewrite !lookup_insert_ne.
  - injection Hp as <- <-. simpl. split; [|auto].
    intros k Hk. by rewrite !lookup_insert_ne.
Qed.


(** The entry of an ordinary layer that is listed in the weights. *)
Lemma prepare_layer_ordinary p n state name m1 :
  name ≠ PT_LAYER_PLANE_CENTROIDS →
  is_Some (weight_pt2pt_layers p !! name) →
  ∃ n' state' mp,
    prepare_layer p (n, state) (name, Some m1) = Ok (n', state') ∧
    mps state' !! name = Some mp ∧
    maxDistForCorrespondence mp = thresholdDist p ∧
    maxAngularDistForCorrespondence mp = thresholdAng p ∧
    onlyKeepTheClosest mp = true ∧ onlyUniqueRobust mp = false ∧
    decimation_other_map_points mp
      = decimation_for (length m1) (maxPairsPerLayer p) ∧
    offset_other_map_points mp = 0%Z.
Proof.
  intros Hne [w Hw]. unfold prepare_layer. simpl.
  apply String.eqb_neq in Hne. rewrite Hne. simpl.
  unfold map_count. rewrite Hw. simpl.
  destruct (Nat.ltb n (length m1)); eexists _, _, _;
    (split; [reflexivity|]); simpl; rewrite lookup_insert_eq;
    (split; [reflexivity|]); simpl; auto 10.
Qed.

(** The entry written for the last layer of a given name is the one that
    [prepareMatchingParams] leaves in [mps]. *)
Lemma prepare_last_write p l1 kv l2 acc acc' :
  kv.1 ∉ l2.*1 →
  for_each (prepare_layer p) (l1 ++ kv :: l2) acc = Ok acc' →
  ∃ acc1 acc2,
    for_each (prepare_layer p) l1 acc = Ok acc1 ∧
    prepare_layer p acc1 kv = Ok acc2 ∧
    mps acc'.2 !! kv.1 = mps acc2.2 !! kv.1.
Proof.
  intros Hnotin. rewrite for_each_app. intros Hl. inv_bind Hl.
  simpl in Hl. inv_bind Hl. exists a, a0. split; [assumption|]. split; [assumption|].
  revert Hl. apply (for_each_inv (λ s, mps s.2 !! kv.1 = mps a0.2 !! kv.1)).
  - reflexivity.
  - intros [n s] x [n' s'] Hinv Hx Hstep. simpl in *.
    apply prepare_layer_frame in Hstep as (Hfr & _). rewrite Hfr; [assumption|].
    intros Heq. apply Hnotin. apply list_elem_of_fmap. exists x. by split.
Qed.

(** [prepareMatchingParams] leaves the pose and the scale alone. *)
Lemma prepareMatchingParams_frame state p state' :
  prepareMatchingParams state p = Ok state' →
  current_scale state' = current_scale state ∧
  current_solution state' = current_solution state.
Proof.
  unfold prepareMatchingParams. intros Hp. inv_bind Hp. injection Hp as <-.
  revert Ha. apply (for_each_inv (λ s, current_scale s.2 = current_scale state ∧
                                      current_solution s.2 = current_solution state)).
  - auto.
  - intros [n s] x [n' s'] [Hsc Hso] _ Hstep. simpl in *.
    apply prepare_layer_frame in Hstep as (_ & -> & -> & _). auto.
Qed.

(** C5, as the code has it. For an ordinary layer of [N] points of the
    first cloud that is listed in the weights, with
    [0 < K = maxPairsPerLayer < N] and within the range in which the cast
    of the source is defined, the stride that [prepareMatchingParams]
    stores is [max 1 (N / K)] with the quotient rounded down, which is
    [N / K], at least 1 and below 2^32; it is the quotient rounded up only
    when [K] divides [N]. The stride decimates the other map: on the layer
    of that name of the second cloud, of [M] points, every stride-th point
    is probed, [ceil (M / stride)] points in all, which is at most [K]
    exactly when [M ≤ K * stride]; for [M = N] that is exactly when [K]
    divides [N]. *)
Theorem decimation_stride_is_floor state p state' name m1 :
  NoDup (point_layers (pc1 state)).*1 →
  (name, Some m1) ∈ point_layers (pc1 state) →
  name ≠ PT_LAYER_PLANE_CENTROIDS →
  is_Some (weight_pt2pt_layers p !! name) →
  maxPairsPerLayer p < length m1 →
  decimation_in_range (length m1) (maxPairsPerLayer p) →
  prepareMatchingParams state p = Ok state' →
  ∃ mp, mps state' !! name = Some mp ∧
    let N := Z.of_nat (length m1) in
    let K := Z.of_nat (maxPairsPerLayer p) in
    let stride := decimation_other_map_points mp in
    (stride = Z.max 1 (N / K) ∧ stride = N / K ∧ 1 ≤ stride < 2 ^ 32 ∧
     (stride = ceil_div N K ↔ (K | N)) ∧
     ∀ m2, layers_find (point_layers (pc2 state)) name = Some (Some m2) →
       let M := Z.of_nat (length m2) in
       let probes := Z.of_nat (probes_per_iteration (length m2) stride) in
       probes = ceil_div M stride ∧
       (probes ≤ K ↔ M ≤ K * stride) ∧
       (M = N → (probes ≤ K ↔ (K | N))))%Z.
Proof.
  intros Hnd Hin Hne Hw HKN (HK & _ & Hfit) Hprep.
  apply list_elem_of_split in Hin as (l1 & l2 & Hl).
  rewrite Hl, fmap_app, fmap_cons in Hnd.
  apply NoDup_app in Hnd as (_ & _ & Hnd). apply NoDup_cons in Hnd as [Hnotin _].
  unfold prepareMatchingParams in Hprep. inv_bind Hprep. injection Hprep as <-.
  rewrite Hl in Ha.
  apply (prepare_last_write p l1 (name, Some m1) l2) in Ha
    as ([n1 st1] & acc2 & _ & Hstep & Hlook); [|assumption].
  destruct (prepare_layer_ordinary p n1 st1 name m1 Hne Hw)
    as (n' & st' & mp & Hstep' & Hmp & _ & _ & _ & _ & Hdec & _).
  pose proof (eq_trans (eq_sym Hstep) Hstep') as Heq. injection Heq as ->.
  exists mp. simpl in Hlook. rewrite Hlook. split; [assumption|].
  intros N K stride. subst stride. rewrite Hdec.
  unfold decimation_for. fold N K. fold N K in HK, Hfit.
  destruct (floor_stride N K) as (Hmax & Hone & Hceil); [lia | lia |].
  rewrite Hmax.
  split; [lia|]. split; [reflexivity|]. split; [lia|]. split; [exact Hceil|].
  intros m2 _. rewrite probes_count by lia.
  split; [reflexivity|]. split; [apply ceil_div_le; lia|].
  intros ->. rewrite ceil_div_le by lia. apply floor_stride_covers; lia.
Qed.

End PrepareFacts.

(** ** ICP_Base::align *)

Section EngineFacts.
Context `{PoseOps} `{!EngineConsts} {WP : Type} `{!ICP_Algorithm WP}.

Implicit Types (p : Parameters WP) (state : ICP_State) (res : Results).

(** What one pass of the loop body can return. *)
Lemma iteration_body_cases p res state prev ctl :
  iteration_body p res state prev = Ok ctl →
  ∃ state' it, impl_ICP_iteration state p = Ok (state', it) ∧
    ((success it = false ∧
      ctl = Break (set_goodness d_zero (set_terminationReason NoPairings res)) state')
     ∨ (success it = true ∧
        small_step p (new_solution it) prev = true ∧
        ctl = Break (set_terminationReason Stalled res)
                    (set_current_solution (new_solution it) state'))
     ∨ (success it = true ∧
        small_step p (new_solution it) prev = false ∧
        ctl = Continue (set_current_solution (new_solution it) state')
                       (new_solution it))).
Proof.
  unfold iteration_body. intros Hb. inv_bind Hb.
  destruct a as [state' it]. exists state', it. split; [assumption|].
  destruct (success it); simpl in Hb.
  - destruct (small_step p (new_solution it) prev) eqn:Hs;
      injection Hb as <-; [right; left | right; right]; auto.
  - injection Hb as <-. left. auto.
Qed.

(** The loop leaves the reason of a fresh [Results] untouched exactly when
    it runs out of passes; otherwise it stops early with [NoPairings] or
    [Stalled]. *)
Lemma icp_loop_reason fuel : ∀ p res state prev res' state',
  icp_loop fuel p res state prev = Ok (res', state') →
  (terminationReason res' = terminationReason res ∧
   nIterations res' = nIterations res + fuel)
  ∨ ((terminationReason res' = NoPairings ∨ terminationReason res' = Stalled) ∧
     nIterations res' < nIterations res + fuel).
Proof.
  induction fuel as [|fuel IH]; intros p res state prev res' state' Hl.
  - injection Hl as <- <-. left. split; [reflexivity | lia].
  - simpl in Hl. inv_bind Hl.
    apply iteration_body_cases in Ha as (st1 & it & _ & [(_ & ->)|[(_ & _ & ->)|(_ & _ & ->)]]).
    + injection Hl as <- <-. right. simpl. split; [auto | lia].
    + injection Hl as <- <-. right. simpl. split; [auto | lia].
    + apply IH in Hl. simpl in Hl.
      destruct Hl as [[-> ->]|[Hr Hn]]; [left | right]; split; auto; lia.
Qed.

Lemma align_end_fields p res state r :
  align_end p res state = Ok r →
  nIterations r = nIterations res ∧
  optimal_scale r = current_scale state ∧
  optimal_tf_mean r = current_solution state ∧
  terminationReason r =
    (if Nat.leb (maxIterations p) (nIterations res) then MaxIterations
     else terminationReason res).
Proof.
  unfold align_end. intros He. inv_bind He. injection He as <-. simpl.
  assert (nIterations a = nIterations res ∧
          terminationReason a =
            (if Nat.leb (maxIterations p) (nIterations res) then MaxIterations
             else terminationReason res)) as [-> ->].
  { destruct (negb (String.eqb (layerOfLargestPc state) EmptyString)).
    - inv_bind Ha. injection Ha as <-. simpl.
      destruct (Nat.leb _ _); auto.
    - injection Ha as <-. destruct (Nat.leb _ _); auto. }
  auto.
Qed.

Lemma align_begin_fresh pcs1 pcs2 guess p res state prev :
  align_begin pcs1 pcs2 guess p = Ok (res, state, prev) →
  res = Results_new ∧
  prev = CPose3D_of_TPose3D guess ∧
  prepareMatchingParams
    (ICP_State_new pcs1 pcs2 (CPose3D_of_TPose3D guess)) p = Ok state.
Proof.
  unfold align_begin. intros Hb.
  do 5 inv_bind Hb. inv_bind Hb. injection Hb as <- <- <-. auto.
Qed.

(** C1. In a pass of the loop of [align] in which the iteration reports
    success, the engine stops with reason [Stalled] if and only if the
    norm of the translation block and the norm of the rotation block of
    the SE(3) logarithm of the incremental pose (the inverse of the
    previous pose composed with the candidate) are strictly below
    [minAbsStep_trans] and [minAbsStep_rot]; that reason survives to the
    returned [Results]. Otherwise the candidate becomes the current pose
    and the previous pose of the next pass, the counter is incremented and
    the loop goes on. The source compares [std::abs] of each norm; a norm
    is its own absolute value. *)
Theorem stalled_iff_small_lie_step p res state prev state' it fuel :
  (∀ v, d_abs (norm v) = norm v) →
  impl_ICP_iteration state p = Ok (state', it) →
  success it = true →
  let dSol := SE3_log (pose_compose (pose_inverse prev) (new_solution it)) in
  let below :=
    d_ltb (norm (take 3 dSol)) (minAbsStep_trans p) &&
    d_ltb (norm (take 3 (drop 3 dSol))) (minAbsStep_rot p) in
  let adopted := set_current_solution (new_solution it) state' in
  (iteration_body p res state prev
     = Ok (Break (set_terminationReason Stalled res) adopted) ↔ below = true)
  ∧ (below = true →
     icp_loop (S fuel) p res state prev
       = Ok (set_terminationReason Stalled res, adopted)
     ∧ (nIterations res < maxIterations p →
        ∀ r, align_end p (set_terminationReason Stalled res) adopted = Ok r →
             terminationReason r = Stalled))
  ∧ (below = false →
     iteration_body p res state prev = Ok (Continue adopted (new_solution it))
     ∧ current_solution adopted = new_solution it
     ∧ icp_loop (S fuel) p res state prev
         = icp_loop fuel p (set_nIterations (S (nIterations res)) res)
             adopted (new_solution it)).
Proof.
  intros Habs Himpl Hsucc dSol below adopted.
  assert (Hstep : small_step p (new_solution it) prev = below).
  { unfold small_step, below, dSol, pose_minus, blockCopy3.
    rewrite !Habs. reflexivity. }
  assert (Hbody : iteration_body p res state prev =
            if below then Ok (Break (set_terminationReason Stalled res) adopted)
            else Ok (Continue adopted (new_solution it))).
  { unfold iteration_body. rewrite Himpl. simpl. rewrite Hsucc. simpl.
    rewrite Hstep. reflexivity. }
  split; [|split].
  - rewrite Hbody. destruct below; split; congruence.
  - intros Hb. rewrite Hb in Hbody. split.
    + simpl. rewrite Hbody. reflexivity.
    + intros Hn r Hr. apply align_end_fields in Hr as (_ & _ & _ & ->).
      simpl. destruct (Nat.leb_spec (maxIterations p) (nIterations res));
        [lia | reflexivity].
  - intros Hb. rewrite Hb in Hbody. split; [assumption|]. split; [reflexivity|].
    simpl. rewrite Hbody. reflexivity.
Qed.

(** C2. When [align] returns, its termination reason is one of
    [MaxIterations], [Stalled], [NoPairings] (a single field, so never two,
    and never the [Undefined] of a fresh [Results]); it is [MaxIterations]
    exactly when the counter has reached [maxIterations], which is exactly
    when the loop ended without assigning a reason, that is without a
    stopping condition firing. This holds for every [maxIterations], the
    positive ones included. *)
Theorem align_reason_exactly_one pcs1 pcs2 guess p r :
  align pcs1 pcs2 guess p = Ok r →
  (terminationReason r = MaxIterations ∨ terminationReason r = Stalled ∨
   terminationReason r = NoPairings)
  ∧ (terminationReason r = MaxIterations ↔ nIterations r = maxIterations p)
  ∧ (terminationReason r ≠ MaxIterations ↔ nIterations r < maxIterations p)
  ∧ ∃ res0 state0 prev0 res' state',
      align_begin pcs1 pcs2 guess p = Ok (res0, state0, prev0) ∧
      icp_loop (maxIterations p) p res0 state0 prev0 = Ok (res', state') ∧
      (terminationReason r = MaxIterations ↔ terminationReason res' = Undefined).
Proof.
  unfold align. intros Ha. inv_bind Ha. destruct a as [[res0 state0] prev0].
  inv_bind Ha. destruct a as [res' state'].
  pose proof (align_begin_fresh _ _ _ _ _ _ _ Ha0) as (-> & -> & _).
  simpl in Ha1. rewrite Nat.sub_0_r in Ha1.
  pose proof (icp_loop_reason _ _ _ _ _ _ _ Ha1) as Hl. simpl in Hl.
  apply align_end_fields in Ha as (Hn & _ & _ & Hr).
  rewrite Hn, Hr.
  assert (Hfinal :
    (terminationReason res' = Undefined ∧ nIterations res' = maxIterations p) ∨
    ((terminationReason res' = NoPairings ∨ terminationReason res' = Stalled) ∧
     nIterations res' < maxIterations p)) by (destruct Hl; [left | right]; tauto).
  clear Hl.
  assert (Hex : ∃ res0 state0' prev0 res'' state'',
      align_begin pcs1 pcs2 guess p = Ok (res0, state0', prev0) ∧
      icp_loop (maxIterations p) p res0 state0' prev0 = Ok (res'', state'') ∧
      terminationReason res'' = terminationReason res').
  { eexists _, _, _, _, _. split; [eassumption|]. split; [eassumption | reflexivity]. }
  destruct Hex as (res0 & s0 & pr0 & r2 & s2 & He1 & He2 & He3).
  destruct Hfinal as [[Hu Hm]|[Hs Hlt]].
  - rewrite Hm, Nat.leb_refl.
    split; [auto|]. split; [tauto|]. split; [split; [congruence | lia]|].
    exists res0, s0, pr0, r2, s2. rewrite He3. tauto.
  - destruct (Nat.leb_spec (maxIterations p) (nIterations res')); [lia|].
    assert (Hne : terminationReason res' ≠ MaxIterations)
      by (destruct Hs; congruence).
    assert (Hnu : terminationReason res' ≠ Undefined)
      by (destruct Hs; congruence).
    split; [destruct Hs; auto|].
    split; [split; [congruence | lia]|].
    split; [tauto|].
    exists res0, s0, pr0, r2, s2. rewrite He3. tauto.
Qed.


(** The loop never writes the scale of the state. *)
Lemma icp_loop_scale fuel : ∀ p res state prev res' state',
  (∀ s q s' it, impl_ICP_iteration s q = Ok (s', it) →
                current_scale s' = current_scale s) →
  icp_loop fuel p res state prev = Ok (res', state') →
  current_scale state' = current_scale state.
Proof.
  induction fuel as [|fuel IH]; intros p res state prev res' state' Himpl Hl.
  - injection Hl as <- <-. reflexivity.
  - simpl in Hl. inv_bind Hl.
    apply iteration_body_cases in Ha
      as (st1 & it & Hi & [(_ & ->)|[(_ & _ & ->)|(_ & _ & ->)]]);
      apply Himpl in Hi.
    + injection Hl as <- <-. assumption.
    + injection Hl as <- <-. assumption.
    + apply IH in Hl; [|assumption]. rewrite Hl. assumption.
Qed.

(** C10, as the code has it. When the iteration leaves the scale of the
    state alone, the scale that [align] returns is the 1.0 to which the
    state is initialised: the engine adopts the candidate pose of an
    iteration and never its [new_scale], whatever that is. The iteration
    receives the state by reference, and an implementation that writes the
    scale of that state changes what [align] returns;
    [ICP_Horn_MultiCloud] does not write it itself. *)
Theorem align_scale_is_one pcs1 pcs2 guess p r :
  (∀ s q s' it, impl_ICP_iteration s q = Ok (s', it) →
                current_scale s' = current_scale s) →
  align pcs1 pcs2 guess p = Ok r →
  optimal_scale r = d_one.
Proof.
  intros Himpl Ha. unfold align in Ha.
  inv_bind Ha. destruct a as [[res0 state0] prev0].
  inv_bind Ha. destruct a as [res' state'].
  apply align_begin_fresh in Ha0 as (_ & _ & Hprep).
  apply prepareMatchingParams_frame in Hprep as [Hsc _].
  apply icp_loop_scale in Ha1; [|assumption].
  apply align_end_fields in Ha as (_ & -> & _).
  rewrite Ha1, Hsc. reflexivity.
Qed.

(** A pass whose iteration reports failure ends the loop with the reason
    [NoPairings] and the goodness 0 in the [Results]. *)
Lemma iteration_failure_breaks p res state prev state' it fuel :
  impl_ICP_iteration state p = Ok (state', it) →
  success it = false →
  icp_loop (S fuel) p res state prev
    = Ok (set_goodness d_zero (set_terminationReason NoPairings res), state').
Proof.
  intros Himpl Hfail. simpl. unfold iteration_body.
  rewrite Himpl. simpl. rewrite Hfail. reflexivity.
Qed.

(** What the statements after the loop make of the goodness: the ratio
    recorded for [layerOfLargestPc] replaces the value left by the loop
    whenever that name is not empty. *)
Lemma align_end_goodness p res state r :
  align_end p res state = Ok r →
  goodness r =
    if String.eqb (layerOfLargestPc state) EmptyString then goodness res
    else match mres state !! layerOfLargestPc state with
         | Some mr => correspondencesRatio mr
         | None => goodness res
         end.
Proof.
  unfold align_end. intros He. inv_bind He. injection He as <-. simpl.
  destruct (String.eqb (layerOfLargestPc state) EmptyString); simpl in Ha.
  - injection Ha as <-. destruct (Nat.leb _ _); reflexivity.
  - unfold map_at in Ha. destruct (mres state !! layerOfLargestPc state);
      [|discriminate].
    simpl in Ha. injection Ha as <-. reflexivity.
Qed.

End EngineFacts.

(** ** Matcher_Points_Base::match *)

Section MatchFacts.
Import Matcher_Points_Base.
Context `{PoseOps} `{!LayerMatcher}.

Variable weights : gmap string double.
Hypothesis Happend : appends_pairings.

Lemma weights_empty_spec : weights_empty weights = true ↔ weights = ∅.
Proof. unfold weights_empty. apply bool_decide_eq_true. Qed.

Lemma is_nil_spec {A} (l : list A) : is_nil l = true ↔ l = [].
Proof. destruct l; simpl; split; congruence. Qed.

(** One pass of the loop of [match]. *)
Lemma match_layer_grows pcLocal pose out kv out' :
  match_layer weights pcLocal pose out kv = Ok out' →
  ∃ new,
    paired_points out' = paired_points out ++ new ∧
    (weights ≠ ∅ → new ≠ [] → is_Some (weights !! kv.1)) ∧
    point_weights out' = point_weights out ++
      (if weights_empty weights || is_nil new then []
       else match weights !! kv.1 with
            | Some w =>
                [(size_t_sub (Z.of_nat (length (paired_points out')))
                             (Z.of_nat (length (paired_points out))), w)]
            | None => []
            end).
Proof.
  unfold match_layer. intros Hm.
  assert (Hskip : ∃ new, paired_points out = paired_points out ++ new ∧
    (weights ≠ ∅ → new ≠ [] → is_Some (weights !! kv.1)) ∧
    point_weights out = point_weights out ++
      (if weights_empty weights || is_nil new then []
       else match weights !! kv.1 with
            | Some w =>
                [(size_t_sub (Z.of_nat (length (paired_points out)))
                             (Z.of_nat (length (paired_points out))), w)]
            | None => []
            end)).
  { exists []. simpl. rewrite orb_true_r, !app_nil_r. split; [|split]; congruence. }
  destruct (negb (weights_empty weights) && Nat.eqb (map_count weights kv.1) 0)
    eqn:Hfilter; [injection Hm as <-; exact Hskip|].
  destruct (layers_find (point_layers pcLocal) kv.1) as [itLocal|];
    [|injection Hm as <-; exact Hskip].
  clear Hskip.
  destruct kv.2 as [glLayer|]; [|discriminate].
  destruct itLocal as [lcLayer|]; [|discriminate].
  inv_bind Hm. apply Happend in Ha as (new & Hpp & Hpw).
  exists new. rewrite Hpp, length_app in Hm.
  destruct (weights_empty weights) eqn:Hwe; simpl in Hm, Hfilter |- *.
  { injection Hm as <-. rewrite app_nil_r.
    apply weights_empty_spec in Hwe. split; [|split]; congruence. }
  assert (Hsome : is_Some (weights !! kv.1)).
  { unfold map_count in Hfilter. destruct (weights !! kv.1); [eauto | discriminate]. }
  destruct new as [|x new]; simpl in Hm |- *.
  - rewrite Nat.add_0_r, Nat.eqb_refl in Hm. simpl in Hm.
    injection Hm as <-. split; [assumption|]. split; [auto|].
    rewrite app_nil_r. assumption.
  - replace (Nat.eqb (length (paired_points out) + S (length new))
                     (length (paired_points out))) with false in Hm
      by (symmetry; apply Nat.eqb_neq; lia).
    simpl in Hm. inv_bind Hm. injection Hm as <-. simpl.
    unfold map_at in Ha. destruct (weights !! kv.1) as [w|]; [|discriminate].
    injection Ha as ->. split; [assumption|]. split; [auto|].
    rewrite Hpw, Hpp, length_app. reflexivity.
Qed.

(** The loop only extends the two sequences. *)
Lemma match_layers_extend layers : ∀ pcLocal pose out0 out,
  match_layers weights layers pcLocal pose out0 = Ok out →
  paired_points out0 `prefix_of` paired_points out ∧
  point_weights out0 `prefix_of` point_weights out.
Proof.
  unfold match_layers.
  induction layers as [|kv layers IH]; intros pcLocal pose out0 out Hl; simpl in Hl.
  - injection Hl as <-. split; reflexivity.
  - inv_bind Hl. apply match_layer_grows in Ha as (new & Hpp & _ & Hpw).
    apply IH in Hl as [Hp1 Hp2]. split.
    + etrans; [|exact Hp1]. rewrite Hpp. by apply prefix_app_r.
    + etrans; [|exact Hp2]. rewrite Hpw. by apply prefix_app_r.
Qed.

Lemma size_t_sub_app {A} (l new : list A) :
  (Z.of_nat (length (l ++ new)) < SIZE_MAX1)%Z →
  size_t_sub (Z.of_nat (length (l ++ new))) (Z.of_nat (length l))
    = Z.of_nat (length new).
Proof.
  rewrite length_app. intros Hlt. unfold size_t_sub.
  replace (Z.of_nat (length l + length new) - Z.of_nat (length l))%Z
    with (Z.of_nat (length new)) by lia.
  apply Z.mod_small. lia.
Qed.

(** One pass, when the number of pairings fits [size_t]. *)
Lemma match_layer_record pcLocal pose out kv out' :
  (Z.of_nat (length (paired_points out')) < SIZE_MAX1)%Z →
  match_layer weights pcLocal pose out kv = Ok out' →
  ∃ new,
    paired_points out' = paired_points out ++ new ∧
    (weights ≠ ∅ → new ≠ [] → is_Some (weights !! kv.1)) ∧
    point_weights out' = point_weights out ++ weight_record weights kv.1 new.
Proof.
  intros Hlt Hm. apply match_layer_grows in Hm as (new & Hpp & Hsome & Hpw).
  exists new. split; [assumption|]. split; [assumption|].
  rewrite Hpw. unfold weight_record.
  destruct (weights_empty weights || is_nil new); [reflexivity|].
  destruct (weights !! kv.1); [|reflexivity].
  rewrite Hpp in Hlt |- *. rewrite size_t_sub_app by assumption. reflexivity.
Qed.

Lemma sum_counts_app (ws1 ws2 : list (Z * double)) :
  sum_counts (ws1 ++ ws2) = (sum_counts ws1 + sum_counts ws2)%Z.
Proof.
  unfold sum_counts. induction ws1 as [|cw ws1 IH]; simpl; [reflexivity|].
  rewrite IH. lia.
Qed.

Lemma prefix_length_le {A} (l1 l2 : list A) :
  l1 `prefix_of` l2 → (length l1 ≤ length l2)%nat.
Proof. intros [k ->]. rewrite length_app. lia. Qed.

(** With weights, the counts of the records add up to the number of
    pairings, pass after pass. *)
Lemma match_layers_sum layers : ∀ pcLocal pose out0 out,
  weights ≠ ∅ →
  (Z.of_nat (length (paired_points out)) < SIZE_MAX1)%Z →
  match_layers weights layers pcLocal pose out0 = Ok out →
  sum_counts (point_weights out0) = Z.of_nat (length (paired_points out0)) →
  sum_counts (point_weights out) = Z.of_nat (length (paired_points out)).
Proof.
  induction layers as [|kv layers IH]; intros pcLocal pose out0 out Hne Hlt Hl Hsum.
  - injection Hl as <-. assumption.
  - unfold match_layers in Hl. simpl in Hl. inv_bind Hl.
    pose proof (match_layers_extend _ _ _ _ _ Hl) as [Hpre _].
    apply prefix_length_le in Hpre.
    apply match_layer_record in Ha as (new & Hpp & Hsome & Hpw); [|lia].
    apply (IH pcLocal pose a out Hne Hlt Hl).
    rewrite Hpw, Hpp, sum_counts_app, length_app, Hsum. unfold weight_record.
    assert (Hwe : weights_empty weights = false).
    { destruct (weights_empty weights) eqn:E; [|reflexivity].
      apply weights_empty_spec in E. contradiction. }
    rewrite Hwe. simpl.
    destruct new as [|x new]; simpl; [lia|].
    destruct (Hsome Hne) as [w ->]; [discriminate|]. simpl. lia.
Qed.

(** C7, as the code has it. Pass by pass over the layers of the global
    cloud, a layer that adds the pairings [new] appends to the weight
    records exactly [weight_record]: one record, with the count of [new]
    and the weight of the layer, when the weights are not empty and [new]
    is not empty, and nothing otherwise; the records written so far stay a
    prefix of the final ones, so they are in the order of the passes. With
    weights, the counts add up to the number of point pairings; without
    weights no record is written at all. *)
Theorem match_weight_records pcGlobal pcLocal pose out :
  (Z.of_nat (length (paired_points out)) < SIZE_MAX1)%Z →
  match_ weights pcGlobal pcLocal pose = Ok out →
  (∀ pre kv post, point_layers pcGlobal = pre ++ kv :: post →
     ∃ out0 out1 new,
       match_layers weights pre pcLocal pose Pairings_new = Ok out0 ∧
       match_layer weights pcLocal pose out0 kv = Ok out1 ∧
       paired_points out1 = paired_points out0 ++ new ∧
       point_weights out1 = point_weights out0 ++ weight_record weights kv.1 new ∧
       point_weights out1 `prefix_of` point_weights out)
  ∧ (weights ≠ ∅ →
     sum_counts (point_weights out) = Z.of_nat (length (paired_points out)))
  ∧ (weights = ∅ → point_weights out = []).
Proof.
  intros Hlt Hm. unfold match_ in Hm. split; [|split].
  - intros pre kv post Hsplit. rewrite Hsplit in Hm.
    unfold match_layers in Hm. rewrite for_each_app in Hm.
    inv_bind Hm. simpl in Hm. inv_bind Hm.
    pose proof (match_layers_extend _ _ _ _ _ Hm) as [Hpre1 Hpre2].
    apply prefix_length_le in Hpre1.
    apply match_layer_record in Ha0 as Hrec; [|lia].
    destruct Hrec as (new & Hpp & _ & Hpw).
    exists a, a0, new. auto.
  - intros Hne. apply (match_layers_sum _ _ _ _ _ Hne Hlt Hm). reflexivity.
  - intros Hempty. revert Hm. unfold match_layers.
    apply (for_each_inv (λ o, point_weights o = [])); [reflexivity|].
    intros o kv o' Ho _ Hstep.
    apply match_layer_grows in Hstep as (new & _ & _ & Hpw).
    apply weights_empty_spec in Hempty. rewrite Hempty in Hpw. simpl in Hpw.
    rewrite Hpw, Ho. reflexivity.
Qed.

End MatchFacts.

(** ** Matcher_Points_Base::transform_local_to_global *)

Section TransformFacts.
Import Matcher_Points_Base.
Context `{PoseOps} `{!Shuffler}.

Lemma length_resize {A} n (x0 : A) v : length (resize n x0 v) = n.
Proof.
  unfold resize. rewrite length_take, length_app, length_replicate. lia.
Qed.

Lemma transform_point_Ok (pcLocal : CPointsMap) pose r ri i q :
  pcLocal !! i = Some q →
  ri < length (locals r) →
  transform_point pcLocal pose r ri i =
    Ok (lambdaKeepBBox
          (set_locals (<[ri := composePoint pose q]> (locals r)) r)
          (composePoint pose q)).
Proof.
  intros Hq Hri. unfold transform_point. rewrite Hq.
  destruct (Nat.ltb_spec ri (length (locals r))); [reflexivity | lia].
Qed.

(** The loop over the subsample stores one point per position and leaves
    the indices as they are. *)
Lemma subsample_loop (pcLocal : CPointsMap) pose (ix : list nat) k : ∀ a r,
  a + k ≤ length ix →
  length (locals r) = length ix →
  (∀ i, i ∈ ix → i < length pcLocal) →
  ∃ r',
    for_each (λ r ri,
                match ix !! ri with
                | None => UB (IndexOutOfBounds ri)
                | Some i => transform_point pcLocal pose r ri i
                end) (seq a k) r = Ok r' ∧
    idxs r' = idxs r ∧ length (locals r') = length ix.
Proof.
  induction k as [|k IH]; intros a r Hak Hlen Hrange; simpl.
  - eauto.
  - destruct (lookup_lt_is_Some_2 ix a) as [i Hi]; [lia|]. rewrite Hi.
    assert (Hin : i ∈ ix) by (apply list_elem_of_lookup; eauto).
    destruct (lookup_lt_is_Some_2 pcLocal i (Hrange i Hin)) as [q Hq].
    rewrite (transform_point_Ok _ _ _ _ _ _ Hq) by lia. simpl.
    edestruct (IH (S a)) as (r' & Hr' & Hidx & Hl); [lia | | exact Hrange |].
    2:{ exists r'. split; [exact Hr'|]. split; [|exact Hl].
        rewrite Hidx. reflexivity. }
    simpl. rewrite length_insert. assumption.
Qed.

(** C4, what the code does. When the local cloud has more than a non-zero
    [maxLocalPoints] points, the vector that is shuffled holds the indices
    below [maxLocalPoints], not those below the number of local points:
    the selected indices are a rearrangement of [0, maxLocalPoints), and
    no point at an index from [maxLocalPoints] on is ever selected,
    whatever the seed and the clock. *)
Theorem subsample_ignores_points_past_max pcLocal pose maxLocalPoints seed now :
  shuffle_permutes →
  maxLocalPoints ≠ 0 →
  maxLocalPoints < length pcLocal →
  ∃ r ix,
    transform_local_to_global pcLocal pose maxLocalPoints seed now = Ok r ∧
    idxs r = Some ix ∧
    ix ≡ₚ seq 0 maxLocalPoints ∧
    length (locals r) = maxLocalPoints ∧
    ∀ i, maxLocalPoints ≤ i → i ∉ ix.
Proof.
  intros Hperm Hnz Hlt. unfold transform_local_to_global.
  destruct (Nat.eqb_spec maxLocalPoints 0) as [|_]; [contradiction|].
  destruct (Nat.leb_spec (length pcLocal) maxLocalPoints) as [|_]; [lia|].
  cbv zeta. cbn [orb].
  set (sd := to_unsigned _).
  set (ix := shuffle sd (seq 0 maxLocalPoints)).
  assert (Hix : ix ≡ₚ seq 0 maxLocalPoints) by apply Hperm.
  assert (Hlen : length ix = maxLocalPoints)
    by (rewrite Hix; apply length_seq).
  assert (Hrange : ∀ i, i ∈ ix → i < maxLocalPoints).
  { intros i Hi. rewrite Hix in Hi. apply elem_of_seq in Hi. lia. }
  match goal with
  | |- context [for_each _ _ ?r0] =>
      destruct (subsample_loop pcLocal pose ix maxLocalPoints 0 r0)
        as (r & Hr & Hidx & Hl)
  end.
  - lia.
  - cbn [locals set_locals set_idxs TransformedLocalPointCloud_new].
    rewrite length_resize. symmetry. exact Hlen.
  - intros i Hi. specialize (Hrange i Hi). lia.
  - exists r, ix. split; [exact Hr|]. split; [rewrite Hidx; reflexivity|].
    split; [exact Hix|]. split; [lia|].
    intros i Hi Hin. specialize (Hrange i Hin). lia.
Qed.

(** C9. With one non-zero seed, two calls on the same cloud, pose and
    bound return the same value, selected indices and transformed
    coordinates included, whatever the clock reads at either call. (With
    the seed 0 the clock seeds the shuffle, and nothing is stated.) *)
Theorem subsample_deterministic_for_nonzero_seed
    pcLocal pose maxLocalPoints seed now1 now2 :
  seed ≠ 0%Z →
  transform_local_to_global pcLocal pose maxLocalPoints seed now1
    = transform_local_to_global pcLocal pose maxLocalPoints seed now2.
Proof.
  intros Hseed. unfold transform_local_to_global.
  destruct (Z.eqb_spec seed 0) as [|_]; [contradiction|]. reflexivity.
Qed.

End TransformFacts.

(** ** ICP_Horn_MultiCloud::impl_ICP_iteration *)

Section HornFacts.
Context `{PoseOps} {WP : Type} `{!HornCollaborators WP}.

(** The Horn iteration writes [currentPairings] and what [runMatchers]
    writes; it leaves the scale alone when [runMatchers] does. *)
Lemma Horn_keeps_scale :
  (∀ s s' prs, runMatchers s = Ok (s', prs) → current_scale s' = current_scale s) →
  ∀ s (q : Parameters WP) s' it,
    Horn_impl_ICP_iteration s q = Ok (s', it) →
    current_scale s' = current_scale s.
Proof.
  intros Hrun s q s' it. unfold Horn_impl_ICP_iteration. intros Hh.
  do 3 inv_bind Hh. inv_bind Hh. destruct a2 as [s1 prs].
  apply Hrun in Ha2.
  destruct (Pairings_empty prs || Nat.ltb (length (paired_points prs)) 3).
  - injection Hh as <- _. simpl. assumption.
  - inv_bind Hh. injection Hh as <- _. simpl. assumption.
Qed.

(** It reports failure exactly when there are fewer than three point
    pairings (an empty [Pairings] has none). *)
Lemma Horn_success_iff s (q : Parameters WP) s' it :
  Horn_impl_ICP_iteration s q = Ok (s', it) →
  success it = true ↔ 3 ≤ length (paired_points (currentPairings s')).
Proof.
  unfold Horn_impl_ICP_iteration. intros Hh.
  do 3 inv_bind Hh. inv_bind Hh. destruct a2 as [s1 prs].
  destruct (Nat.ltb_spec (length (paired_points prs)) 3) as [Hlt|Hge].
  - rewrite orb_true_r in Hh. injection Hh as <- <-. simpl.
    split; [discriminate | lia].
  - rewrite orb_false_r in Hh.
    assert (Pairings_empty prs = false) as Hne.
    { unfold Pairings_empty. destruct (paired_points prs); [simpl in Hge; lia|].
      reflexivity. }
    rewrite Hne in Hh. inv_bind Hh. injection Hh as <- <-. simpl.
    split; [intros _; assumption | reflexivity].
Qed.
End HornFacts.

(** ** The properties on concrete inputs *)

Section Examples.
Import Lattice Matcher_Points_Base.
Local Open Scope Z_scope.

Lemma lattice_norm_abs : ∀ v : list double, d_abs (norm v) = norm v.
Proof. intros v. simpl. apply Z.abs_eq, Z.sqrt_nonneg. Qed.

Lemma run_by_index_keeps_scale s s' prs :
  run_by_index s = Ok (s', prs) → current_scale s' = current_scale s.
Proof. unfold run_by_index. intros Hr. injection Hr as <- _. reflexivity. Qed.

Lemma horn_keeps_scale target : ∀ s (q : Parameters unit) s' it,
  impl_ICP_iteration (ICP_Algorithm := horn target) s q = Ok (s', it) →
  current_scale s' = current_scale s.
Proof.
  apply (Horn_keeps_scale (HornCollaborators0 := collaborators target)).
  apply run_by_index_keeps_scale.
Qed.

Lemma by_index_appends : appends_pairings.
Proof.
  intros gl lc pose out out' Hm. injection Hm as <-. simpl. eauto.
Qed.

Lemma shuffle_rev_permutes : shuffle_permutes.
Proof.
  intros seed l. simpl. destruct (Z.odd seed); [|reflexivity].
  symmetry. apply Permutation_rev.
Qed.

(** C1 on the two triangles: the solver answers a pose five units away,
    the step is not small, the candidate is adopted and the loop goes on. *)
Lemma stalled_iff_small_lie_step_witness :
  ∃ state' it,
    (∀ v : list double, d_abs (norm v) = norm v) ∧
    impl_ICP_iteration (ICP_Algorithm := horn (5, -2, 0))
      triangles_state (weighted 500) = Ok (state', it) ∧
    success it = true ∧
    new_solution it = (5, -2, 0) ∧
    iteration_body (ICP_Algorithm0 := horn (5, -2, 0))
      (weighted 500) Results_new triangles_state (0, 0, 0)
      = Ok (Continue (set_current_solution (new_solution it) state')
                     (new_solution it)).
Proof.
  eexists _, _. split; [exact lattice_norm_abs|].
  split; [vm_compute; reflexivity|]. split; [reflexivity|].
  split; [reflexivity|].
  match goal with
  | |- _ = Ok (Continue (set_current_solution (new_solution ?it) ?st) _) =>
      refine (proj1 (proj2 (proj2
        (stalled_iff_small_lie_step (ICP_Algorithm0 := horn (5, -2, 0))
           (weighted 500) Results_new triangles_state
           (0, 0, 0) st it 0%nat lattice_norm_abs _ _)) _))
  end.
  - vm_compute. reflexivity.
  - reflexivity.
  - vm_compute. reflexivity.
Defined.

(** C2 on the two triangles: the call returns, with one of the three
    reasons. *)
Lemma align_reason_exactly_one_witness :
  ∃ r,
    align (ICP_Algorithm0 := horn (5, -2, 0))
      (cloud [("raw", triangle)]) (cloud [("raw", shifted_triangle)]) (0, 0, 0)
      (weighted 500) = Ok r ∧
    (terminationReason r = MaxIterations ∨ terminationReason r = Stalled ∨
     terminationReason r = NoPairings) ∧
    terminationReason r = Stalled.
Proof.
  eexists. split; [vm_compute; reflexivity|]. split; [|reflexivity].
  match goal with
  | |- terminationReason ?r = _ ∨ _ =>
      refine (proj1 (align_reason_exactly_one (ICP_Algorithm0 := horn (5, -2, 0))
        (cloud [("raw", triangle)]) (cloud [("raw", shifted_triangle)]) (0, 0, 0)
        (weighted 500) r _))
  end.
  vm_compute. reflexivity.
Defined.

(** C3 on two clouds of one point each, the layer listed in the weights:
    the first iteration finds one pairing and reports failure; [align]
    returns [NoPairings] after no iteration, and the goodness it returns is
    the ratio recorded for the layer, 1, not the 0 that the loop assigned. *)
Theorem align_NoPairings_goodness_overwritten :
  align (ICP_Algorithm0 := horn (0, 0, 0))
    (cloud [("raw", one_point)]) (cloud [("raw", one_point)]) (0, 0, 0)
    (weighted 500)
  = Ok {| optimal_tf_mean := (0, 0, 0); optimal_scale := 1; nIterations := 0;
          terminationReason := NoPairings; goodness := 1 |}
  ∧ (1 : double) ≠ d_zero.
Proof. split; [vm_compute; reflexivity | discriminate]. Qed.

(** C4 on a cloud of three points and [maxLocalPoints = 2]: the point at
    index 2 is not selected. *)
Lemma subsample_ignores_points_past_max_witness :
  shuffle_permutes ∧ 2%nat ≠ 0%nat ∧ (2 < length triangle)%nat ∧
  ∃ r ix,
    transform_local_to_global triangle (1, 1, 1) 2 7 99 = Ok r ∧
    idxs r = Some ix ∧ 2%nat ∉ ix.
Proof.
  split; [exact shuffle_rev_permutes|]. split; [discriminate|].
  split; [simpl; lia|].
  destruct (subsample_ignores_points_past_max (H1 := PoseOps_Z) triangle (1, 1, 1) 2 7 99
              shuffle_rev_permutes ltac:(discriminate) ltac:(simpl; lia))
    as (r & ix & Hr & Hix & _ & _ & Hnot).
  exists r, ix. split; [exact Hr|]. split; [exact Hix|]. apply Hnot. lia.
Defined.

(** C5 fails on two clouds with a layer of five points and
    [maxPairsPerLayer = 2]: the stride is 2, the quotient rounded up is 3,
    and three points of the layer of the second cloud are probed, more
    than two. *)
Lemma decimation_stride_not_ceil :
  ∃ state' mp,
    prepareMatchingParams five_state (weighted 2) = Ok state' ∧
    mps state' !! "raw"%string = Some mp ∧
    layers_find (point_layers (pc2 state')) "raw" = Some (Some five_points) ∧
    decimation_other_map_points mp = 2 ∧
    decimation_other_map_points mp ≠ ceil_div 5 2 ∧
    ¬ (probes_per_iteration (length five_points) (decimation_other_map_points mp) ≤ 2)%nat.
Proof.
  eexists _, _. split; [vm_compute; reflexivity|].
  split; [vm_compute; reflexivity|]. split; [reflexivity|]. split; [reflexivity|].
  split; [vm_compute; discriminate|]. vm_compute. lia.
Qed.

(** The stride follows the layer of the first cloud, whatever the size of
    the layer that it decimates: five points against fifty, with
    [maxPairsPerLayer = 2], pass the checks of [align], the stride is 2,
    and 25 of the fifty points are probed. *)
Example decimation_ignores_size_of_other_cloud :
  ∃ res state prev mp,
    align_begin (cloud [("raw", five_points)]) (cloud [("raw", fifty_points)])
      (0, 0, 0) (weighted 2) = Ok (res, state, prev) ∧
    mps state !! "raw"%string = Some mp ∧
    decimation_other_map_points mp = 2 ∧
    layers_find (point_layers (pc2 state)) "raw" = Some (Some fifty_points) ∧
    probes_per_iteration (length fifty_points) (decimation_other_map_points mp)
      = 25%nat.
Proof.
  eexists _, _, _, _. split; [vm_compute; reflexivity|].
  split; [vm_compute; reflexivity|]. split; [reflexivity|].
  split; vm_compute; reflexivity.
Qed.

(** C5 as amended, on the same layer of five points. *)
Lemma decimation_stride_is_floor_witness :
  ∃ state' mp,
    NoDup (point_layers (pc1 five_state)).*1 ∧
    ("raw"%string, Some five_points) ∈ point_layers (pc1 five_state) ∧
    "raw"%string ≠ PT_LAYER_PLANE_CENTROIDS ∧
    is_Some (weight_pt2pt_layers (weighted 2) !! "raw"%string) ∧
    (maxPairsPerLayer (weighted 2) < length five_points)%nat ∧
    decimation_in_range (length five_points) (maxPairsPerLayer (weighted 2)) ∧
    prepareMatchingParams five_state (weighted 2) = Ok state' ∧
    mps state' !! "raw"%string = Some mp ∧
    decimation_other_map_points mp = Z.max 1 (5 / 2) ∧
    (Z.of_nat (probes_per_iteration (length five_points)
                 (decimation_other_map_points mp)) ≤ 2
     ↔ 5 ≤ 2 * decimation_other_map_points mp).
Proof.
  assert (Hnd : NoDup (point_layers (pc1 five_state)).*1)
    by apply NoDup_singleton.
  assert (Hin : ("raw"%string, Some five_points) ∈ point_layers (pc1 five_state))
    by apply list_elem_of_here.
  assert (Hne : "raw"%string ≠ PT_LAYER_PLANE_CENTROIDS) by discriminate.
  assert (Hw : is_Some (weight_pt2pt_layers (weighted 2) !! "raw"%string))
    by (exists 1; vm_compute; reflexivity).
  assert (HK : (maxPairsPerLayer (weighted 2) < length five_points)%nat)
    by (simpl; lia).
  assert (Hrange : decimation_in_range (length five_points)
                     (maxPairsPerLayer (weighted 2)))
    by (repeat split; reflexivity).
  destruct (prepareMatchingParams five_state (weighted 2))
    as [state'|e|u] eqn:Hprep; [|vm_compute in Hprep; discriminate..].
  destruct (decimation_stride_is_floor five_state (weighted 2)
              state' "raw" five_points Hnd Hin Hne Hw HK Hrange Hprep)
    as (mp & Hmp & Hall).
  cbv zeta in Hall. destruct Hall as (Hstride & _ & _ & _ & Hprobes).
  destruct (Hprobes five_points eq_refl) as (_ & Hiff & _).
  exists state', mp. auto 12.
Defined.


(** C7 fails without weights: three pairings, no record, and the counts of
    no record add up to 0. *)
Lemma match_without_weights_counts_nothing :
  appends_pairings ∧
  ∃ out,
    match_ ∅ (cloud [("raw", triangle)]) (cloud [("raw", shifted_triangle)])
      (0, 0, 0) = Ok out ∧
    length (paired_points out) = 3%nat ∧
    point_weights out = [] ∧
    sum_counts (point_weights out) ≠ Z.of_nat (length (paired_points out)).
Proof.
  split; [exact by_index_appends|]. eexists. split; [vm_compute; reflexivity|].
  split; [reflexivity|]. split; [reflexivity|]. vm_compute. discriminate.
Qed.

(** C7 as amended, with a weight for the one layer. *)
Lemma match_weight_records_witness :
  appends_pairings ∧
  ∃ out,
    match_ (list_to_map [("raw"%string, 1)])
      (cloud [("raw", triangle)]) (cloud [("raw", shifted_triangle)]) (0, 0, 0)
      = Ok out ∧
    Z.of_nat (length (paired_points out)) < SIZE_MAX1 ∧
    point_weights out = [(3, 1)] ∧
    (list_to_map [("raw"%string, 1)] ≠ (∅ : gmap string double) →
     sum_counts (point_weights out) = Z.of_nat (length (paired_points out))).
Proof.
  split; [exact by_index_appends|]. eexists. split; [vm_compute; reflexivity|].
  split; [vm_compute; reflexivity|]. split; [reflexivity|].
  match goal with
  | |- _ → sum_counts (point_weights ?out) = _ =>
      refine (proj1 (proj2 (match_weight_records (list_to_map [("raw"%string, 1)])
        by_index_appends (cloud [("raw", triangle)])
        (cloud [("raw", shifted_triangle)]) (0, 0, 0) out _ _)))
  end.
  - vm_compute. reflexivity.
  - vm_compute. reflexivity.
Defined.


(** C9 with the seed 7 and two readings of the clock. *)
Lemma subsample_deterministic_for_nonzero_seed_witness :
  7 ≠ 0 ∧
  transform_local_to_global triangle (1, 1, 1) 2 7 1
    = transform_local_to_global triangle (1, 1, 1) 2 7 2.
Proof.
  split; [discriminate|].
  apply subsample_deterministic_for_nonzero_seed. discriminate.
Defined.

(** With the seed 0 the clock decides the order. *)
Example subsample_seed_zero_follows_clock :
  transform_local_to_global triangle (1, 1, 1) 2 0 1
    ≠ transform_local_to_global triangle (1, 1, 1) 2 0 2.
Proof. vm_compute. discriminate. Qed.

(** C10 fails with an iteration that writes the scale of the state it is
    handed: [align] returns that scale, 2 here, and not 1.0. *)
Lemma align_returns_scale_written_by_iteration :
  ∃ r,
    align (ICP_Algorithm0 := horn_rescaling (5, -2, 0) 2)
      (cloud [("raw", triangle)]) (cloud [("raw", shifted_triangle)]) (0, 0, 0)
      (weighted 500) = Ok r ∧
    optimal_scale r = 2 ∧ optimal_scale r ≠ d_one.
Proof.
  eexists. split; [vm_compute; reflexivity|].
  split; [reflexivity | discriminate].
Qed.

(** C10 as amended, on the two triangles, with the Horn iteration. *)
Lemma align_scale_is_one_witness :
  (∀ s (q : Parameters unit) s' it,
     impl_ICP_iteration (ICP_Algorithm := horn (5, -2, 0)) s q = Ok (s', it) →
     current_scale s' = current_scale s) ∧
  ∃ r,
    align (ICP_Algorithm0 := horn (5, -2, 0))
      (cloud [("raw", triangle)]) (cloud [("raw", shifted_triangle)]) (0, 0, 0)
      (weighted 500) = Ok r ∧
    optimal_scale r = d_one.
Proof.
  split; [exact (horn_keeps_scale (5, -2, 0))|].
  eexists. split; [vm_compute; reflexivity|].
  match goal with
  | |- optimal_scale ?r = _ =>
      refine (align_scale_is_one (ICP_Algorithm0 := horn (5, -2, 0))
        (cloud [("raw", triangle)]) (cloud [("raw", shifted_triangle)]) (0, 0, 0)
        (weighted 500) r (horn_keeps_scale (5, -2, 0)) _)
  end.
  vm_compute. reflexivity.
Defined.

End Examples.

(** * Further properties of the code *)

(** ** Loops *)

Lemma for_each_total {A S} (body : S → A → result S) l :
  (∀ x, x ∈ l → ∀ s, is_Ok (body s x) = true) →
  ∀ s, is_Ok (for_each body l s) = true.
Proof.
  induction l as [|x l IH]; intros Hbody s; [reflexivity|]. simpl.
  pose proof (Hbody x ltac:(left) s) as Hx.
  destruct (body s x) as [s1|e|u]; [|discriminate..]. simpl.
  apply IH. intros y Hy. apply Hbody. by right.
Qed.

Lemma for_each_ext {A S} (f g : S → A → result S) l :
  (∀ s x, x ∈ l → f s x = g s x) → ∀ s, for_each f l s = for_each g l s.
Proof.
  induction l as [|x l IH]; intros Hfg s; [reflexivity|]. simpl.
  rewrite (Hfg s x) by left. destruct (g s x); simpl; [|reflexivity..].
  apply IH. intros s' y Hy. apply Hfg. by right.
Qed.



(** ** More on ICP_Base::prepareMatchingParams *)

Section PrepareMore.
Context `{PoseOps} `{!EngineConsts} {WP : Type}.

Implicit Types (p : Parameters WP) (state : ICP_State).

Lemma layer_is_counted_true p name :
  layer_is_counted p name = true ↔
  name ≠ PT_LAYER_PLANE_CENTROIDS ∧ is_Some (weight_pt2pt_layers p !! name).
Proof.
  unfold layer_is_counted, map_count.
  destruct (String.eqb_spec name PT_LAYER_PLANE_CENTROIDS) as [->|Hne]; simpl.
  - split; [discriminate | intros [[] _]; reflexivity].
  - destruct (weight_pt2pt_layers p !! name); simpl.
    + split; [eauto | reflexivity].
    + split; [discriminate | intros [_ [w Hw]]; discriminate].
Qed.

Lemma layer_is_counted_false p name :
  layer_is_counted p name = false ↔
  name = PT_LAYER_PLANE_CENTROIDS ∨ weight_pt2pt_layers p !! name = None.
Proof.
  unfold layer_is_counted, map_count.
  destruct (String.eqb_spec name PT_LAYER_PLANE_CENTROIDS) as [->|Hne]; simpl.
  - split; auto.
  - destruct (weight_pt2pt_layers p !! name); simpl.
    + split; [discriminate | intros [|]; [contradiction | discriminate]].
    + split; auto.
Qed.



(** One layer writes an entry under its own name and keeps the entries that
    exist; it does not touch the pairings. *)
Lemma prepare_layer_dom p n state kv n' state' :
  prepare_layer p (n, state) kv = Ok (n', state') →
  is_Some (mps state' !! kv.1) ∧
  (∀ k, is_Some (mps state !! k) → is_Some (mps state' !! k)) ∧
  currentPairings state' = currentPairings state.
Proof.
  unfold prepare_layer. intros Hp.
  assert (Hkeep : ∀ (m : gmap string TMatchingParams) k x,
             is_Some (m !! k) → is_Some (<[kv.1 := x]> m !! k)).
  { intros m k x Hk. destruct (decide (kv.1 = k)) as [<-|Hne].
    - rewrite lookup_insert_eq. eauto.
    - by rewrite lookup_insert_ne. }
  destruct (negb (String.eqb kv.1 PT_LAYER_PLANE_CENTROIDS)).
  - destruct (Nat.eqb _ 0).
    + injection Hp as <- <-. simpl. rewrite lookup_insert_eq. eauto.
    + destruct kv.2 as [m1|]; [|discriminate].
      destruct (Nat.ltb n (length m1)); injection Hp as <- <-; simpl;
        rewrite lookup_insert_eq; eauto 10.
  - injection Hp as <- <-. simpl. rewrite lookup_insert_eq. eauto 10.
Qed.

(** The fields that [prepareMatchingParams] never writes. *)
Lemma prepareMatchingParams_untouched state p state' :
  prepareMatchingParams state p = Ok state' →
  pc1 state' = pc1 state ∧ pc2 state' = pc2 state ∧
  currentPairings state' = currentPairings state ∧
  current_solution state' = current_solution state ∧
  current_scale state' = current_scale state ∧
  mres state' = mres state.
Proof.
  unfold prepareMatchingParams. intros Hp. inv_bind Hp. injection Hp as <-.
  revert Ha.
  apply (for_each_inv (λ s, pc1 s.2 = pc1 state ∧ pc2 s.2 = pc2 state ∧
           currentPairings s.2 = currentPairings state ∧
           current_solution s.2 = current_solution state ∧
           current_scale s.2 = current_scale state ∧
           mres s.2 = mres state)); [auto 10|].
  intros [n s] x [n' s'] (I1 & I2 & I3 & I4 & I5 & I6) _ Hstep. simpl in *.
  pose proof (prepare_layer_dom _ _ _ _ _ _ Hstep) as (_ & _ & Hcp).
  apply prepare_layer_frame in Hstep as (_ & -> & -> & -> & -> & ->).
  rewrite Hcp. auto 10.
Qed.

(** X2. [prepareMatchingParams] writes [mps] and [layerOfLargestPc] and
    nothing else: when it returns, every layer of the first cloud has an
    entry in [mps] (also the layers that are not listed in the weights),
    the entries under other names are those of before, and the clouds, the
    pairings, the pose, the scale and the matching results are untouched. *)
Theorem prepareMatchingParams_footprint state p state' :
  prepareMatchingParams state p = Ok state' →
  (∀ name, name ∈ (point_layers (pc1 state)).*1 → is_Some (mps state' !! name)) ∧
  (∀ name, name ∉ (point_layers (pc1 state)).*1 →
           mps state' !! name = mps state !! name) ∧
  pc1 state' = pc1 state ∧ pc2 state' = pc2 state ∧
  currentPairings state' = currentPairings state ∧
  current_solution state' = current_solution state ∧
  current_scale state' = current_scale state ∧
  mres state' = mres state.
Proof.
  unfold prepareMatchingParams. intros Hp. inv_bind Hp. injection Hp as <-.
  split; [|split].
  - intros name Hin. apply list_elem_of_fmap in Hin as (kv & -> & Hin).
    apply list_elem_of_split in Hin as (l1 & l2 & Hl). rewrite Hl in Ha.
    rewrite for_each_app in Ha. inv_bind Ha. simpl in Ha. inv_bind Ha.
    destruct a0 as [n1 st1], a1 as [n2 st2].
    apply prepare_layer_dom in Ha1 as (Hsome & _ & _).
    revert Ha. apply (for_each_inv (λ s, is_Some (mps s.2 !! kv.1))); [exact Hsome|].
    intros [n s] x [n' s'] Hinv _ Hstep. simpl in *.
    apply prepare_layer_dom in Hstep as (_ & Hkeep & _). auto.
  - intros name Hnotin. revert Ha.
    apply (for_each_inv (λ s, mps s.2 !! name = mps state !! name)); [reflexivity|].
    intros [n s] x [n' s'] Hinv Hx Hstep. simpl in *.
    apply prepare_layer_frame in Hstep as (Hfr & _). rewrite Hfr; [assumption|].
    intros ->. apply Hnotin. apply list_elem_of_fmap. exists x. by split.
  - apply prepareMatchingParams_untouched with p. unfold prepareMatchingParams.
    rewrite Ha. reflexivity.
Qed.

(** The entry that [prepareMatchingParams] leaves for a layer of a cloud
    whose names are distinct is the one written by that layer, from the
    entry that was there before the call. *)
Lemma prepare_entry_of_layer state p state' kv :
  NoDup (point_layers (pc1 state)).*1 →
  kv ∈ point_layers (pc1 state) →
  prepareMatchingParams state p = Ok state' →
  ∃ n1 st1 n2 st2,
    prepare_layer p (n1, st1) kv = Ok (n2, st2) ∧
    mps st1 !! kv.1 = mps state !! kv.1 ∧
    mps state' !! kv.1 = mps st2 !! kv.1.
Proof.
  intros Hnd Hin Hprep.
  apply list_elem_of_split in Hin as (l1 & l2 & Hl).
  rewrite Hl, fmap_app, fmap_cons in Hnd.
  apply NoDup_app in Hnd as (_ & Hdisj & Hnd). apply NoDup_cons in Hnd as [Hnotin _].
  unfold prepareMatchingParams in Hprep. inv_bind Hprep. injection Hprep as <-.
  rewrite Hl in Ha.
  apply (prepare_last_write p l1 kv l2) in Ha
    as ([n1 st1] & [n2 st2] & Hl1 & Hstep & Hlook); [|assumption].
  exists n1, st1, n2, st2. split; [assumption|]. split; [|assumption].
  revert Hl1. apply (for_each_inv (λ s, mps s.2 !! kv.1 = mps state !! kv.1));
    [reflexivity|].
  intros [n s] x [n' s'] Hinv Hx Hstep'. simpl in *.
  apply prepare_layer_frame in Hstep' as (Hfr & _). rewrite Hfr; [assumption|].
  intros Heq. apply (Hdisj x.1); [|rewrite <- Heq; left].
  apply list_elem_of_fmap. exists x. by split.
Qed.

(** X3. A layer that is not the layer of plane centroids and is not listed
    in the weights still gets an entry in [mps]: the default-constructed
    parameters of MRPT, or the entry that was there before the call. Its
    points are not looked at, so an empty pointer does no harm. *)
Theorem unlisted_layer_gets_default_params state p state' name ptr :
  NoDup (point_layers (pc1 state)).*1 →
  (name, ptr) ∈ point_layers (pc1 state) →
  name ≠ PT_LAYER_PLANE_CENTROIDS →
  weight_pt2pt_layers p !! name = None →
  prepareMatchingParams state p = Ok state' →
  mps state' !! name = Some (default TMatchingParams_default (mps state !! name)).
Proof.
  intros Hnd Hin Hne Hw Hprep.
  destruct (prepare_entry_of_layer state p state' (name, ptr) Hnd Hin Hprep)
    as (n1 & st1 & n2 & st2 & Hstep & Hbefore & Hafter).
  simpl in *. rewrite Hafter, <- Hbefore.
  unfold prepare_layer in Hstep. simpl in Hstep.
  apply String.eqb_neq in Hne. rewrite Hne in Hstep. simpl in Hstep.
  unfold map_count in Hstep. rewrite Hw in Hstep. simpl in Hstep.
  injection Hstep as _ <-. simpl. apply lookup_insert_eq.
Qed.

(** X4. For a layer that is listed in the weights and is not the layer of
    plane centroids, [prepareMatchingParams] copies the two thresholds of
    the parameters, sets keep-only-closest, clears unique-robust and sets
    the offset of the decimation to 0. *)
Theorem ordinary_layer_params state p state' name m1 :
  NoDup (point_layers (pc1 state)).*1 →
  (name, Some m1) ∈ point_layers (pc1 state) →
  layer_is_counted p name = true →
  prepareMatchingParams state p = Ok state' →
  ∃ mp, mps state' !! name = Some mp ∧
    maxDistForCorrespondence mp = thresholdDist p ∧
    maxAngularDistForCorrespondence mp = thresholdAng p ∧
    onlyKeepTheClosest mp = true ∧
    onlyUniqueRobust mp = false ∧
    offset_other_map_points mp = 0%Z.
Proof.
  intros Hnd Hin Hc Hprep. apply layer_is_counted_true in Hc as [Hne Hw].
  destruct (prepare_entry_of_layer state p state' (name, Some m1) Hnd Hin Hprep)
    as (n1 & st1 & n2 & st2 & Hstep & _ & Hafter).
  destruct (prepare_layer_ordinary p n1 st1 name m1 Hne Hw)
    as (n' & st' & mp & Hstep' & Hmp & Hd & Ha & Hk & Hu & _ & Ho).
  pose proof (eq_trans (eq_sym Hstep) Hstep') as Heq. injection Heq as -> ->.
  exists mp. simpl in Hafter. rewrite Hafter. auto 10.
Qed.

(** X5. When a counted layer has no more points than [maxPairsPerLayer]
    (which is positive), its decimation is 1 and every one of its points is
    probed: nothing is decimated. *)
Theorem small_layer_is_not_decimated state p state' name m1 :
  NoDup (point_layers (pc1 state)).*1 →
  (name, Some m1) ∈ point_layers (pc1 state) →
  layer_is_counted p name = true →
  0 < maxPairsPerLayer p →
  length m1 ≤ maxPairsPerLayer p →
  prepareMatchingParams state p = Ok state' →
  ∃ mp, mps state' !! name = Some mp ∧
    decimation_other_map_points mp = 1%Z ∧
    probed_indices (length m1) (decimation_other_map_points mp) = seq 0 (length m1).
Proof.
  intros Hnd Hin Hc HK HN Hprep. apply layer_is_counted_true in Hc as [Hne Hw].
  destruct (prepare_entry_of_layer state p state' (name, Some m1) Hnd Hin Hprep)
    as (n1 & st1 & n2 & st2 & Hstep & _ & Hafter).
  destruct (prepare_layer_ordinary p n1 st1 name m1 Hne Hw)
    as (n' & st' & mp & Hstep' & Hmp & _ & _ & _ & _ & Hdec & _).
  pose proof (eq_trans (eq_sym Hstep) Hstep') as Heq. injection Heq as -> ->.
  exists mp. simpl in Hafter. rewrite Hafter. split; [assumption|].
  assert (Hone : decimation_other_map_points mp = 1%Z).
  { rewrite Hdec. unfold decimation_for.
    rewrite Z.quot_div_nonneg by lia.
    assert (Z.of_nat (length m1) / Z.of_nat (maxPairsPerLayer p) ≤ 1)%Z; [|lia].
    apply Z.div_le_upper_bound; lia. }
  split; [assumption|]. rewrite Hone. unfold probed_indices.
  induction (seq 0 (length m1)) as [|i l IH]; [reflexivity|].
  rewrite filter_cons, IH. rewrite Z.mod_1_r. reflexivity.
Qed.

(** The search for the largest layer, one layer further. *)
Lemma largest_so_far_step p name0 seen n state kv n' state' :
  prepare_layer p (n, state) kv = Ok (n', state') →
  largest_so_far p name0 seen n (layerOfLargestPc state) →
  largest_so_far p name0 (seen ++ [kv]) n' (layerOfLargestPc state').
Proof.
  destruct kv as [name ptr]. intros Hstep Hinv.
  assert (Hskip : layer_is_counted p name = false →
            largest_so_far p name0 (seen ++ [(name, ptr)]) n (layerOfLargestPc state)).
  { intros Hc. destruct Hinv as [(Hn & Hl & Hall)|(m & Hm & Hcm & Hn & Hpos & Hall)].
    - left. split; [assumption|]. split; [assumption|].
      intros name' m' Hin Hc'. apply elem_of_app in Hin as [Hin|Hin]; [eauto|].
      apply list_elem_of_singleton in Hin. injection Hin as -> _. congruence.
    - right. exists m. split; [apply elem_of_app; auto|]. split; [assumption|].
      split; [assumption|]. split; [assumption|].
      intros name' m' Hin Hc'. apply elem_of_app in Hin as [Hin|Hin]; [eauto|].
      apply list_elem_of_singleton in Hin. injection Hin as -> _. congruence. }
  unfold prepare_layer in Hstep. simpl in Hstep.
  destruct (String.eqb_spec name PT_LAYER_PLANE_CENTROIDS) as [Hpl|Hne];
    simpl in Hstep.
  { injection Hstep as <- <-. simpl. apply Hskip.
    apply layer_is_counted_false. auto. }
  destruct (Nat.eqb (map_count (weight_pt2pt_layers p) name) 0) eqn:Hcount.
  { injection Hstep as <- <-. simpl. apply Hskip.
    unfold layer_is_counted. rewrite Hcount. apply andb_false_r. }
  assert (Hc : layer_is_counted p name = true).
  { unfold layer_is_counted. rewrite Hcount.
    apply String.eqb_neq in Hne. rewrite Hne. reflexivity. }
  destruct ptr as [m1|]; [|discriminate].
  destruct (Nat.ltb_spec n (length m1)) as [Hlt|Hge];
    injection Hstep as <- <-; simpl.
  - right. exists m1. split; [apply elem_of_app; right; left|].
    split; [assumption|]. split; [reflexivity|]. split; [lia|].
    intros name' m' Hin Hc'. apply elem_of_app in Hin as [Hin|Hin].
    + destruct Hinv as [(Hn & _ & Hall)|(m & _ & _ & _ & _ & Hall)];
        specialize (Hall name' m' Hin Hc'); lia.
    + apply list_elem_of_singleton in Hin. injection Hin as _ ->. lia.
  - destruct Hinv as [(Hn & Hl & Hall)|(m & Hm & Hcm & Hn & Hpos & Hall)].
    + left. split; [assumption|]. split; [assumption|].
      intros name' m' Hin Hc'. apply elem_of_app in Hin as [Hin|Hin]; [eauto|].
      apply list_elem_of_singleton in Hin. injection Hin as _ ->. lia.
    + right. exists m. split; [apply elem_of_app; auto|]. split; [assumption|].
      split; [assumption|]. split; [assumption|].
      intros name' m' Hin Hc'. apply elem_of_app in Hin as [Hin|Hin]; [eauto|].
      apply list_elem_of_singleton in Hin. injection Hin as _ ->. lia.
Qed.

Lemma largest_so_far_loop p name0 l : ∀ seen n state acc',
  for_each (prepare_layer p) l (n, state) = Ok acc' →
  largest_so_far p name0 seen n (layerOfLargestPc state) →
  largest_so_far p name0 (seen ++ l) acc'.1 (layerOfLargestPc acc'.2).
Proof.
  induction l as [|kv l IH]; intros seen n state acc' Hl Hinv; simpl in Hl.
  - injection Hl as <-. rewrite app_nil_r. assumption.
  - inv_bind Hl. destruct a as [n1 st1].
    replace (seen ++ kv :: l) with ((seen ++ [kv]) ++ l)
      by (rewrite <- app_assoc; reflexivity).
    apply (IH _ _ _ _ Hl).
    exact (largest_so_far_step p name0 seen n state kv n1 st1 Ha Hinv).
Qed.

(** X6. After [prepareMatchingParams], [layerOfLargestPc] names a counted
    layer of the first cloud that has points and that no counted layer
    exceeds in size; when no counted layer has a point it keeps the value it
    had (empty, in [align]). The layer of plane centroids and the layers
    that are not listed in the weights never become [layerOfLargestPc],
    whatever their size. *)
Theorem layerOfLargestPc_is_largest state p state' :
  prepareMatchingParams state p = Ok state' →
  (layerOfLargestPc state' = layerOfLargestPc state ∧
   ∀ name m, (name, Some m) ∈ point_layers (pc1 state) →
             layer_is_counted p name = true → length m = 0)
  ∨ (∃ m, (layerOfLargestPc state', Some m) ∈ point_layers (pc1 state) ∧
          layer_is_counted p (layerOfLargestPc state') = true ∧
          0 < length m ∧
          ∀ name' m', (name', Some m') ∈ point_layers (pc1 state) →
                      layer_is_counted p name' = true → length m' ≤ length m).
Proof.
  unfold prepareMatchingParams. intros Hp. inv_bind Hp. injection Hp as <-.
  apply (largest_so_far_loop p (layerOfLargestPc state) _ []) in Ha.
  - simpl in Ha. destruct Ha as [(_ & Hl & Hall)|(m & Hm & Hc & Hn & Hpos & Hall)].
    + left. auto.
    + right. exists m. rewrite <- Hn. auto.
  - left. split; [reflexivity|]. split; [reflexivity|].
    intros name' m' Hin. inversion Hin.
Qed.

End PrepareMore.

(** ** More on ICP_Base::align *)

Section AlignMore.
Context `{PoseOps} `{!EngineConsts} {WP : Type} `{!ICP_Algorithm WP}.

Implicit Types (p : Parameters WP) (state : ICP_State) (res : Results).

(** The state that [align] hands to the loop: the initial guess as pose, the
    scale 1.0, and no matching result. *)
Lemma align_begin_state pcs1 pcs2 guess p res state prev :
  align_begin pcs1 pcs2 guess p = Ok (res, state, prev) →
  res = Results_new ∧ prev = CPose3D_of_TPose3D guess ∧
  current_solution state = CPose3D_of_TPose3D guess ∧
  current_scale state = d_one ∧ mres state = ∅ ∧
  pc1 state = pcs1 ∧ pc2 state = pcs2.
Proof.
  intros Hb. apply align_begin_fresh in Hb as (-> & -> & Hprep).
  apply prepareMatchingParams_untouched in Hprep
    as (-> & -> & _ & -> & -> & ->). auto 10.
Qed.

(** X7. With [maxIterations = 0] the iteration is never called: once the
    checks have passed, [align] returns [MaxIterations] after 0 iterations
    with the initial guess as pose, the scale 1.0 and the goodness 0 when no
    counted layer has a point, and throws [std::out_of_range] otherwise (no
    matching result has been recorded for [layerOfLargestPc]). *)
Theorem align_without_iterations pcs1 pcs2 guess p res state prev :
  maxIterations p = 0 →
  align_begin pcs1 pcs2 guess p = Ok (res, state, prev) →
  align pcs1 pcs2 guess p =
    if String.eqb (layerOfLargestPc state) EmptyString
    then Ok {| optimal_tf_mean := CPose3D_of_TPose3D guess;
               optimal_scale := d_one; nIterations := 0;
               terminationReason := MaxIterations; goodness := d_zero |}
    else Throw (OutOfRange (layerOfLargestPc state)).
Proof.
  intros Hmax Hb. unfold align. rewrite Hb. simpl.
  apply align_begin_state in Hb as (-> & -> & Hsol & Hsc & Hmres & _).
  rewrite Hmax. simpl. unfold align_end. rewrite Hmax. simpl.
  destruct (String.eqb (layerOfLargestPc state) EmptyString); simpl.
  - rewrite Hsol, Hsc. reflexivity.
  - unfold map_at. rewrite Hmres, lookup_empty. reflexivity.
Qed.

(** A property of the state that the iteration keeps and that does not
    depend on the pose is kept by the loop. *)
Lemma icp_loop_state_inv (P : ICP_State → Prop) fuel :
  (∀ s q s' it, impl_ICP_iteration s q = Ok (s', it) → P s → P s') →
  (∀ x s, P s → P (set_current_solution x s)) →
  ∀ p res state prev res' state',
    icp_loop fuel p res state prev = Ok (res', state') → P state → P state'.
Proof.
  intros Himpl Hset.
  induction fuel as [|fuel IH]; intros p res state prev res' state' Hl HP.
  - injection Hl as <- <-. assumption.
  - simpl in Hl. inv_bind Hl.
    apply iteration_body_cases in Ha
      as (st1 & it & Hi & [(_ & ->)|[(_ & _ & ->)|(_ & _ & ->)]]);
      apply Himpl in Hi; try assumption.
    + injection Hl as <- <-. assumption.
    + injection Hl as <- <-. auto.
    + apply IH in Hl; auto.
Qed.

(** X8. The engine reads the goodness from [mres], which only the iteration
    can fill: with an iteration that leaves [mres] and [layerOfLargestPc]
    alone, [align] never returns once some counted layer has a point; it
    ends in an exception ([std::out_of_range] from [mres.at], unless the
    iteration fails first). *)
Theorem align_needs_matching_results pcs1 pcs2 guess p res state prev :
  (∀ s q s' it, impl_ICP_iteration s q = Ok (s', it) →
     mres s' = mres s ∧ layerOfLargestPc s' = layerOfLargestPc s) →
  align_begin pcs1 pcs2 guess p = Ok (res, state, prev) →
  layerOfLargestPc state ≠ EmptyString →
  is_Ok (align pcs1 pcs2 guess p) = false.
Proof.
  intros Himpl Hb Hne. unfold align. rewrite Hb. simpl.
  apply align_begin_state in Hb as (-> & -> & _ & _ & Hmres & _).
  simpl. rewrite Nat.sub_0_r.
  destruct (icp_loop (maxIterations p) p Results_new state
              (CPose3D_of_TPose3D guess)) as [[res' state']|e|u] eqn:Hl;
    [|reflexivity..].
  simpl.
  apply (icp_loop_state_inv
           (λ s, mres s = ∅ ∧ layerOfLargestPc s = layerOfLargestPc state))
    in Hl as [Hm Hn]; [| |auto|auto].
  - unfold align_end. rewrite Hn.
    apply String.eqb_neq in Hne. rewrite Hne. simpl.
    unfold map_at. rewrite Hm, lookup_empty. reflexivity.
  - intros s q s' it Hi [Hm Hn]. apply Himpl in Hi as [-> ->]. auto.
Qed.

(** The counting loop adds nothing when no layer is listed. *)
Lemma count_nothing pcs2 p l acc :
  (∀ kv, kv ∈ l → weight_pt2pt_layers p !! kv.1 = None) →
  for_each (count_layer pcs2 p) l acc = Ok acc.
Proof.
  induction l as [|kv l IH]; intros Hall; [reflexivity|]. simpl.
  assert (Hskip : count_layer pcs2 p acc kv = Ok acc).
  { unfold count_layer, map_count. rewrite (Hall kv) by left. reflexivity. }
  rewrite Hskip. simpl. apply IH. intros kv' Hin. apply Hall. by right.
Qed.

(** X9. When none of the layers of the first cloud is listed in the weights
    (in particular with no weights at all), no point is counted, and [align]
    throws an assertion failure unless both clouds have planes: clouds of
    points alone are rejected by the checks. *)
Theorem align_rejects_unweighted_points pcs1 pcs2 guess p :
  (∀ kv, kv ∈ point_layers pcs1 → weight_pt2pt_layers p !! kv.1 = None) →
  planes pcs1 = [] ∨ planes pcs2 = [] →
  ∃ what, align pcs1 pcs2 guess p = Throw (AssertionFailed what).
Proof.
  intros Hnone Hpl. unfold align, align_begin.
  destruct (Nat.eqb (length (point_layers pcs1)) (length (point_layers pcs2)));
    simpl; [|eauto].
  destruct (negb (is_nil (point_layers pcs1)) ||
            negb (is_nil (planes pcs1)) && negb (is_nil (planes pcs2)));
    simpl; [|eauto].
  rewrite count_nothing by assumption. simpl.
  destruct Hpl as [-> | ->]; simpl; [eauto|].
  destruct (negb (is_nil (planes pcs1))); simpl; eauto.
Qed.

(** The loop does not stop with [Stalled] when no step counts as small. *)
Lemma icp_loop_never_stalls fuel : ∀ p res state prev res' state',
  (∀ cur prv, small_step p cur prv = false) →
  icp_loop fuel p res state prev = Ok (res', state') →
  terminationReason res' = terminationReason res ∨
  terminationReason res' = NoPairings.
Proof.
  induction fuel as [|fuel IH]; intros p res state prev res' state' Hsm Hl.
  - injection Hl as <- <-. auto.
  - simpl in Hl. inv_bind Hl.
    apply iteration_body_cases in Ha
      as (st1 & it & Hi & [(_ & ->)|[(_ & Hs & ->)|(_ & _ & ->)]]).
    + injection Hl as <- <-. auto.
    + rewrite Hsm in Hs. discriminate.
    + apply IH in Hl; [|assumption]. exact Hl.
Qed.

(** X10. A threshold below which no number is (0 for the absolute values
    that the test compares) switches the stall test off: when nothing is
    strictly below [minAbsStep_trans], or nothing strictly below
    [minAbsStep_rot], [align] never returns [Stalled]. *)
Theorem align_never_stalls_without_threshold pcs1 pcs2 guess p r :
  (∀ x, d_ltb (d_abs x) (minAbsStep_trans p) = false) ∨
  (∀ x, d_ltb (d_abs x) (minAbsStep_rot p) = false) →
  align pcs1 pcs2 guess p = Ok r →
  terminationReason r = MaxIterations ∨ terminationReason r = NoPairings.
Proof.
  intros Hth Ha.
  assert (Hsm : ∀ cur prv, small_step p cur prv = false).
  { intros cur prv. unfold small_step.
    destruct Hth as [Ht|Hr]; rewrite ?Ht, ?Hr; [reflexivity | apply andb_false_r]. }
  unfold align in Ha. inv_bind Ha. destruct a as [[res0 state0] prev0].
  inv_bind Ha. destruct a as [res' state'].
  apply align_begin_fresh in Ha0 as (-> & _ & _).
  simpl in Ha1. rewrite Nat.sub_0_r in Ha1.
  pose proof (icp_loop_reason _ _ _ _ _ _ _ Ha1) as Hcount.
  apply icp_loop_never_stalls in Ha1; [|assumption].
  apply align_end_fields in Ha as (_ & _ & _ & ->).
  destruct (Nat.leb_spec (maxIterations p) (nIterations res')) as [|Hlt]; [auto|].
  destruct Ha1 as [Hsame | ->]; [|auto].
  exfalso. simpl in Hcount, Hsame.
  destruct Hcount as [[_ Hn]|[[Hr|Hr] _]]; [lia | congruence | congruence].
Qed.

(** X11. When the first call of the iteration reports failure, [align]
    returns [NoPairings] after 0 iterations; the pose it returns is the one
    in the state that the iteration left, and the goodness is the ratio
    recorded for [layerOfLargestPc] in that state, or 0 when that name is
    empty; without a recorded ratio for a non-empty name it throws. *)
Theorem align_first_pass_failure pcs1 pcs2 guess p res state prev state' it :
  0 < maxIterations p →
  align_begin pcs1 pcs2 guess p = Ok (res, state, prev) →
  impl_ICP_iteration state p = Ok (state', it) →
  success it = false →
  align pcs1 pcs2 guess p =
    if String.eqb (layerOfLargestPc state') EmptyString
    then Ok {| optimal_tf_mean := current_solution state';
               optimal_scale := current_scale state'; nIterations := 0;
               terminationReason := NoPairings; goodness := d_zero |}
    else match mres state' !! layerOfLargestPc state' with
         | Some mr =>
             Ok {| optimal_tf_mean := current_solution state';
                   optimal_scale := current_scale state'; nIterations := 0;
                   terminationReason := NoPairings;
                   goodness := correspondencesRatio mr |}
         | None => Throw (OutOfRange (layerOfLargestPc state'))
         end.
Proof.
  intros Hmax Hb Himpl Hfail. unfold align. rewrite Hb. simpl.
  apply align_begin_fresh in Hb as (-> & -> & _). simpl.
  rewrite Nat.sub_0_r.
  destruct (maxIterations p) as [|fuel] eqn:Hm; [lia|].
  rewrite (iteration_failure_breaks p _ state _ state' it fuel Himpl Hfail).
  simpl. unfold align_end. simpl. rewrite Hm. simpl.
  destruct (String.eqb (layerOfLargestPc state') EmptyString); simpl;
    [reflexivity|].
  unfold map_at. destruct (mres state' !! layerOfLargestPc state'); reflexivity.
Qed.

(** The pose in the state of the loop is the one it started with or one
    that a successful call of the iteration proposed. *)
Lemma icp_loop_pose_origin fuel : ∀ p res state prev res' state',
  (∀ s q s' it, impl_ICP_iteration s q = Ok (s', it) →
                current_solution s' = current_solution s) →
  icp_loop fuel p res state prev = Ok (res', state') →
  current_solution state' = current_solution state ∨
  ∃ s q s' it, impl_ICP_iteration s q = Ok (s', it) ∧ success it = true ∧
               current_solution state' = new_solution it.
Proof.
  induction fuel as [|fuel IH]; intros p res state prev res' state' Hfr Hl.
  - injection Hl as <- <-. auto.
  - simpl in Hl. inv_bind Hl.
    apply iteration_body_cases in Ha
      as (st1 & it & Hi & [(_ & ->)|[(Hs & _ & ->)|(Hs & _ & ->)]]).
    + injection Hl as <- <-. left. eapply Hfr. eassumption.
    + injection Hl as <- <-. right. exists state, p, st1, it. auto.
    + apply (IH _ _ _ _ _ _ Hfr) in Hl. destruct Hl as [Hsame|Hlater].
      * right. exists state, p, st1, it. rewrite Hsame. auto.
      * right. exact Hlater.
Qed.

(** X12. [align] never returns a pose of its own making: with an iteration
    that leaves the pose of the state alone, the pose in the [Results] is
    the initial guess or the candidate of a call of the iteration that
    reported success. *)
Theorem align_pose_is_guess_or_candidate pcs1 pcs2 guess p r :
  (∀ s q s' it, impl_ICP_iteration s q = Ok (s', it) →
                current_solution s' = current_solution s) →
  align pcs1 pcs2 guess p = Ok r →
  optimal_tf_mean r = CPose3D_of_TPose3D guess ∨
  ∃ s q s' it, impl_ICP_iteration s q = Ok (s', it) ∧ success it = true ∧
               optimal_tf_mean r = new_solution it.
Proof.
  intros Hfr Ha. unfold align in Ha.
  inv_bind Ha. destruct a as [[res0 state0] prev0].
  inv_bind Ha. destruct a as [res' state'].
  apply align_begin_state in Ha0 as (_ & _ & Hsol & _).
  apply icp_loop_pose_origin in Ha1; [|assumption].
  apply align_end_fields in Ha as (_ & _ & -> & _).
  rewrite Hsol in Ha1. exact Ha1.
Qed.

(** X13. When no counted layer has a point (a registration on planes
    alone), and the iteration leaves [layerOfLargestPc] alone, the goodness
    that [align] returns is 0, whatever the iterations record. *)
Theorem align_goodness_zero_without_points pcs1 pcs2 guess p res state prev r :
  (∀ s q s' it, impl_ICP_iteration s q = Ok (s', it) →
                layerOfLargestPc s' = layerOfLargestPc s) →
  align_begin pcs1 pcs2 guess p = Ok (res, state, prev) →
  layerOfLargestPc state = EmptyString →
  align pcs1 pcs2 guess p = Ok r →
  goodness r = d_zero.
Proof.
  intros Hfr Hb Hempty Ha. unfold align in Ha. rewrite Hb in Ha. simpl in Ha.
  apply align_begin_fresh in Hb as (-> & -> & _).
  inv_bind Ha. destruct a as [res' state'].
  assert (Hname : layerOfLargestPc state' = EmptyString).
  { apply (icp_loop_state_inv (λ s, layerOfLargestPc s = EmptyString))
      in Ha0; auto.
    intros s q s' it Hi Hs. apply Hfr in Hi. congruence. }
  assert (Hg : goodness res' = d_zero).
  { clear - Ha0. simpl in Ha0. revert Ha0.
    generalize (maxIterations p - 0) as fuel.
    assert (Hgen : ∀ fuel res st prev,
              goodness res = d_zero →
              icp_loop fuel p res st prev = Ok (res', state') →
              goodness res' = d_zero).
    { induction fuel as [|fuel IH]; intros res st prev Hg Hl.
      - injection Hl as <- <-. assumption.
      - simpl in Hl. inv_bind Hl.
        apply iteration_body_cases in Ha
          as (st1 & it & _ & [(_ & ->)|[(_ & _ & ->)|(_ & _ & ->)]]).
        + injection Hl as <- <-. reflexivity.
        + injection Hl as <- <-. assumption.
        + apply IH in Hl; auto. }
    intros fuel. apply Hgen. reflexivity. }
  apply align_end_goodness in Ha. rewrite Ha, Hname. simpl. exact Hg.
Qed.

End AlignMore.

(** ** The checks of ICP_Base::align on the layers *)

Section LayerChecks.
Context `{PoseOps} `{!EngineConsts} {WP : Type} `{!ICP_Algorithm WP}.

Implicit Types (p : Parameters WP) (state : ICP_State) (res : Results).





End LayerChecks.

(** ** More on ICP_Horn_MultiCloud *)

Section HornMore.
Context `{PoseOps} `{!EngineConsts} {WP : Type} `{!HornCollaborators WP}.

(** X14. What one Horn iteration returns: the state that [runMatchers]
    left, with its pairings stored as [currentPairings]; success exactly
    when there are at least three point pairings, however many plane
    pairings there are; on success the pose of the solver, on failure the
    default pose; and always the scale 1.0, the scale of the solver being
    dropped. *)
Theorem Horn_iteration_outcome s (q : Parameters WP) s' it :
  Horn_impl_ICP_iteration s q = Ok (s', it) →
  ∃ s1 prs,
    runMatchers s = Ok (s1, prs) ∧
    s' = set_currentPairings prs s1 ∧
    new_scale it = d_one ∧
    (success it = true ↔ 3 ≤ length (paired_points prs)) ∧
    (success it = false → new_solution it = CPose3D_new) ∧
    (success it = true →
     ∃ tf, optimal_tf_horn prs (pairingsWeightParameters q) = Ok tf ∧
           new_solution it = CPose3D_of_TPose3D (optimal_pose tf)).
Proof.
  unfold Horn_impl_ICP_iteration. intros Hh.
  do 3 inv_bind Hh. inv_bind Hh. destruct a2 as [s1 prs].
  exists s1, prs. split; [assumption|].
  destruct (Nat.ltb_spec (length (paired_points prs)) 3) as [Hlt|Hge].
  - rewrite orb_true_r in Hh. injection Hh as <- <-. simpl.
    split; [reflexivity|]. split; [reflexivity|].
    split; [split; [discriminate | lia]|]. split; [reflexivity | discriminate].
  - rewrite orb_false_r in Hh.
    assert (Pairings_empty prs = false) as Hne.
    { unfold Pairings_empty. destruct (paired_points prs); [simpl in Hge; lia|].
      reflexivity. }
    rewrite Hne in Hh. inv_bind Hh. injection Hh as <- <-. simpl.
    split; [reflexivity|]. split; [reflexivity|].
    split; [split; [intros _; assumption | reflexivity]|].
    split; [discriminate|]. intros _. exists a2. auto.
Qed.

(** X15. [align] accepts two clouds without point layers when both have
    planes, but the Horn iteration asserts that the first cloud has a point
    layer: with at least one iteration allowed, [align] with
    [ICP_Horn_MultiCloud] throws on every such pair. *)
Theorem Horn_align_throws_without_point_layers pcs1 pcs2 guess (p : Parameters WP) :
  point_layers pcs1 = [] →
  0 < maxIterations p →
  ∃ what, align (ICP_Algorithm0 := ICP_Horn_MultiCloud) pcs1 pcs2 guess p
            = Throw (AssertionFailed what).
Proof.
  intros Hnil Hmax. unfold align.
  destruct (align_begin pcs1 pcs2 guess p) as [[[res state] prev]|e|u] eqn:Hb.
  - simpl. apply align_begin_state in Hb as (-> & -> & _ & _ & _ & Hpc1 & Hpc2).
    simpl. rewrite Nat.sub_0_r.
    destruct (maxIterations p) as [|fuel]; [lia|]. simpl.
    unfold iteration_body. simpl. unfold Horn_impl_ICP_iteration.
    rewrite Hpc1, Hnil. simpl.
    destruct (length (point_layers (pc2 state))); simpl; eauto.
  - simpl. unfold align_begin in Hb. rewrite Hnil in Hb. simpl in Hb.
    destruct (length (point_layers pcs2)); simpl in Hb;
      [|injection Hb as <-; eauto].
    destruct (planes pcs1); simpl in Hb; [injection Hb as <-; eauto|].
    destruct (planes pcs2); simpl in Hb; [injection Hb as <-; eauto|].
    unfold prepareMatchingParams in Hb. simpl in Hb. rewrite Hnil in Hb.
    discriminate Hb.
  - exfalso. unfold align_begin in Hb. rewrite Hnil in Hb. simpl in Hb.
    destruct (length (point_layers pcs2)); simpl in Hb; [|discriminate].
    destruct (planes pcs1); simpl in Hb; [discriminate|].
    destruct (planes pcs2); simpl in Hb; [discriminate|].
    unfold prepareMatchingParams in Hb. simpl in Hb. rewrite Hnil in Hb.
    discriminate Hb.
Qed.

End HornMore.

(** ** More on Matcher_Points_Base::match *)

Section MatchMore.
Import Matcher_Points_Base.
Context `{PoseOps} `{!LayerMatcher}.

Variable weights : gmap string double.

(** A layer that is not matched leaves [out] as it is. *)
Lemma match_layer_skip pcLocal pose out kv :
  layer_is_matched weights pcLocal kv = false →
  match_layer weights pcLocal pose out kv = Ok out.
Proof.
  unfold layer_is_matched, match_layer. intros Hm.
  destruct (negb (weights_empty weights) && Nat.eqb (map_count weights kv.1) 0);
    [reflexivity|].
  destruct (layers_find (point_layers pcLocal) kv.1); [discriminate | reflexivity].
Qed.

Lemma match_layers_filter layers pcLocal pose : ∀ out,
  match_layers weights layers pcLocal pose out =
  match_layers weights
    (filter (λ kv, layer_is_matched weights pcLocal kv = true) layers)
    pcLocal pose out.
Proof.
  unfold match_layers. induction layers as [|kv layers IH]; intros out;
    [reflexivity|].
  rewrite filter_cons. case_decide as Hm; simpl.
  - destruct (match_layer weights pcLocal pose out kv); simpl;
      [apply IH | reflexivity..].
  - apply not_true_is_false in Hm. rewrite match_layer_skip by assumption.
    simpl. apply IH.
Qed.

(** X16. [match] only looks at the layers of the global cloud that pass the
    filter on the weights and that the local cloud has too: the other
    layers, and the planes of the global cloud, can be dropped without
    changing the result, whatever they hold (an empty pointer included). *)
Theorem match_ignores_unmatched_layers pcGlobal pcLocal pose planes' :
  match_ weights pcGlobal pcLocal pose =
  match_ weights
    (mkCloud (filter (λ kv, layer_is_matched weights pcLocal kv = true)
                     (point_layers pcGlobal)) planes')
    pcLocal pose.
Proof. unfold match_. simpl. apply match_layers_filter. Qed.

(** One layer throws, whatever [out] is, when it is matched and one of the
    two pointers is empty; with a layer matcher that never throws it
    returns otherwise. *)
Lemma match_layer_Ok_iff pcLocal pose out kv :
  (∀ gl lc pose out, is_Ok (implMatchOneLayer gl lc pose out) = true) →
  is_Ok (match_layer weights pcLocal pose out kv) = true ↔
  (layer_is_matched weights pcLocal kv = true →
   kv.2 ≠ None ∧ layers_find (point_layers pcLocal) kv.1 ≠ Some None).
Proof.
  intros Htotal. unfold layer_is_matched, match_layer.
  destruct (weights_empty weights) eqn:Hwe; simpl.
  - destruct (layers_find (point_layers pcLocal) kv.1) as [[lc|]|]; simpl.
    + destruct kv.2 as [gl|]; simpl.
      * specialize (Htotal gl lc pose out).
        destruct (implMatchOneLayer gl lc pose out); [|discriminate..]. simpl.
        split; [intros _ _; split; discriminate | reflexivity].
      * split; [discriminate | intros Hn; destruct (Hn eq_refl); congruence].
    + destruct kv.2; simpl;
        (split; [discriminate | intros Hn; destruct (Hn eq_refl); congruence]).
    + split; [discriminate | reflexivity].
  - unfold map_count, map_at.
    destruct (weights !! kv.1) as [w|]; simpl;
      [|split; [discriminate | reflexivity]].
    destruct (layers_find (point_layers pcLocal) kv.1) as [[lc|]|]; simpl.
    + destruct kv.2 as [gl|]; simpl.
      * specialize (Htotal gl lc pose out).
        destruct (implMatchOneLayer gl lc pose out) as [out1| |]; [|discriminate..].
        simpl. destruct (negb (Nat.eqb _ _)); simpl;
          (split; [intros _ _; split; discriminate | reflexivity]).
      * split; [discriminate | intros Hn; destruct (Hn eq_refl); congruence].
    + destruct kv.2; simpl;
        (split; [discriminate | intros Hn; destruct (Hn eq_refl); congruence]).
    + split; [discriminate | reflexivity].
Qed.

(** X17. With a layer matcher that never throws, [match] returns exactly
    when every matched layer has a cloud behind its pointer on both sides;
    it throws an assertion failure otherwise. In particular the lookup of
    the weight of a layer ([weight_pt2pt_layers.at]) never throws. *)
Theorem match_returns_iff pcGlobal pcLocal pose :
  (∀ gl lc pose out, is_Ok (implMatchOneLayer gl lc pose out) = true) →
  is_Ok (match_ weights pcGlobal pcLocal pose) = true ↔
  ∀ kv, kv ∈ point_layers pcGlobal →
        layer_is_matched weights pcLocal kv = true →
        kv.2 ≠ None ∧ layers_find (point_layers pcLocal) kv.1 ≠ Some None.
Proof.
  intros Htotal. unfold match_, match_layers. split.
  - intros Hok kv Hin Hm.
    destruct (is_Ok (match_layer weights pcLocal pose Pairings_new kv)) eqn:Hkv.
    + apply (match_layer_Ok_iff _ _ _ _ Htotal) in Hkv; [exact Hkv | exact Hm].
    + exfalso.
      rewrite (for_each_throws (match_layer weights pcLocal pose) _ _ Hin) in Hok;
        [discriminate|].
      intros out. destruct (is_Ok (match_layer weights pcLocal pose out kv)) eqn:Ho;
        [|reflexivity].
      apply (match_layer_Ok_iff _ _ _ _ Htotal) in Ho; [|exact Hm].
      assert (is_Ok (match_layer weights pcLocal pose Pairings_new kv) = true)
        as Hnew by (apply (match_layer_Ok_iff _ _ _ _ Htotal); intros _; exact Ho).
      congruence.
  - intros Hall. apply for_each_total. intros kv Hin out.
    apply (match_layer_Ok_iff _ _ _ _ Htotal). exact (Hall kv Hin).
Qed.

Hypothesis Happend : appends_pairings.

Lemma weight_record_cases name new :
  weight_record weights name new = [] ∨
  ∃ w, weights !! name = Some w ∧ new ≠ [] ∧
       weight_record weights name new = [(Z.of_nat (length new), w)].
Proof.
  unfold weight_record. destruct (weights_empty weights); [auto|].
  destruct new as [|x new]; [auto|]. simpl.
  destruct (weights !! name) as [w|]; [|auto]. right. exists w. auto.
Qed.

Lemma match_layers_records layers : ∀ pcLocal pose out0 out,
  (Z.of_nat (length (paired_points out)) < SIZE_MAX1)%Z →
  match_layers weights layers pcLocal pose out0 = Ok out →
  length (point_weights out) ≤ length (point_weights out0) + length layers ∧
  ∀ cw, cw ∈ point_weights out →
    cw ∈ point_weights out0 ∨
    ((1 ≤ cw.1)%Z ∧ ∃ kv, kv ∈ layers ∧ weights !! kv.1 = Some cw.2).
Proof.
  induction layers as [|kv layers IH]; intros pcLocal pose out0 out Hlt Hl.
  - injection Hl as <-. simpl. split; [lia | auto].
  - unfold match_layers in Hl. simpl in Hl. inv_bind Hl.
    pose proof (match_layers_extend weights Happend _ _ _ _ _ Hl) as [Hpre _].
    apply prefix_length_le in Hpre.
    apply (match_layer_record weights Happend) in Ha
      as (new & Hpp & _ & Hpw); [|lia].
    destruct (IH pcLocal pose a out Hlt Hl) as [Hlen Hall].
    rewrite Hpw, length_app in Hlen.
    destruct (weight_record_cases kv.1 new) as [Hnil|(w & Hw & Hne & Hrec)].
    + rewrite Hnil in Hlen, Hpw. rewrite app_nil_r in Hpw. simpl in *.
      split; [lia|]. intros cw Hcw. destruct (Hall cw Hcw) as [Hin|(Hone & kv' & Hin & Hkv')].
      * left. rewrite <- Hpw. assumption.
      * right. split; [assumption|]. exists kv'. split; [by right | assumption].
    + rewrite Hrec in Hlen, Hpw. simpl in *. split; [lia|].
      intros cw Hcw. destruct (Hall cw Hcw) as [Hin|(Hone & kv' & Hin & Hkv')].
      * rewrite Hpw in Hin. apply elem_of_app in Hin as [Hin|Hin]; [auto|].
        apply list_elem_of_singleton in Hin. subst cw. right. simpl.
        split; [destruct new; [contradiction | simpl; lia]|].
        exists kv. split; [left | assumption].
      * right. split; [assumption|]. exists kv'. split; [by right | assumption].
Qed.

(** X18. With a layer matcher that only appends pairings, the weight
    records that [match] returns are well formed: there is at most one per
    layer of the global cloud, none has the count 0, and each carries the
    weight that the configuration gives to a layer of the global cloud. *)
Theorem match_records_are_well_formed pcGlobal pcLocal pose out :
  (Z.of_nat (length (paired_points out)) < SIZE_MAX1)%Z →
  match_ weights pcGlobal pcLocal pose = Ok out →
  length (point_weights out) ≤ length (point_layers pcGlobal) ∧
  ∀ cw, cw ∈ point_weights out →
    (1 ≤ cw.1)%Z ∧
    ∃ name, name ∈ (point_layers pcGlobal).*1 ∧ weights !! name = Some cw.2.
Proof.
  intros Hlt Hm. unfold match_ in Hm.
  destruct (match_layers_records _ _ _ _ _ Hlt Hm) as [Hlen Hall]. simpl in *.
  split; [assumption|]. intros cw Hcw.
  destruct (Hall cw Hcw) as [Hin|(Hone & kv & Hin & Hkv)]; [inversion Hin|].
  split; [assumption|]. exists kv.1. split; [|assumption].
  apply list_elem_of_fmap. exists kv. by split.
Qed.

End MatchMore.

(** ** More on Matcher_Points_Base::transform_local_to_global *)

Section TransformMore.
Import Matcher_Points_Base.
Context `{PoseOps} `{!Shuffler}.

Lemma keep_min_cases (m v : float) : keep_min m v = m ∨ keep_min m v = v.
Proof. unfold keep_min. destruct (f_ltb v m); auto. Qed.

Lemma keep_max_cases (m v : float) : keep_max m v = m ∨ keep_max m v = v.
Proof. unfold keep_max. destruct (f_ltb m v); auto. Qed.

Lemma keep_min_below (m v g : float) :
  f_ltb_strict → f_ltb g m = false → f_ltb g (keep_min m v) = false.
Proof.
  intros [_ Htrans] Hg. unfold keep_min. destruct (f_ltb v m) eqn:Hv; [|assumption].
  destruct (f_ltb g v) eqn:Hgv; [|reflexivity].
  rewrite (Htrans g v m Hgv Hv) in Hg. discriminate.
Qed.

Lemma keep_min_self (m v : float) :
  f_ltb_strict → f_ltb v (keep_min m v) = false.
Proof.
  intros [Hirr _]. unfold keep_min. destruct (f_ltb v m) eqn:Hv; [apply Hirr | assumption].
Qed.

Lemma keep_max_above (m v g : float) :
  f_ltb_strict → f_ltb m g = false → f_ltb (keep_max m v) g = false.
Proof.
  intros [_ Htrans] Hg. unfold keep_max. destruct (f_ltb m v) eqn:Hv; [|assumption].
  destruct (f_ltb v g) eqn:Hvg; [|reflexivity].
  rewrite (Htrans m v g Hv Hvg) in Hg. discriminate.
Qed.

Lemma keep_max_self (m v : float) :
  f_ltb_strict → f_ltb (keep_max m v) v = false.
Proof.
  intros [Hirr _]. unfold keep_max. destruct (f_ltb m v) eqn:Hv; [apply Hirr | assumption].
Qed.

(** Extending the box by a point keeps inside what was inside and takes the
    point in. *)
Lemma lambdaKeepBBox_inside r v :
  f_ltb_strict →
  (∀ g, inside_bbox (localMin r) (localMax r) g →
        inside_bbox (localMin (lambdaKeepBBox r v)) (localMax (lambdaKeepBBox r v)) g) ∧
  inside_bbox (localMin (lambdaKeepBBox r v)) (localMax (lambdaKeepBBox r v)) v.
Proof.
  intros Hs. unfold inside_bbox. simpl. split.
  - intros g (A1 & A2 & A3 & A4 & A5 & A6).
    repeat split; auto using keep_min_below, keep_max_above.
  - repeat split; auto using keep_min_self, keep_max_self.
Qed.

(** One position of the output. *)
Lemma store_selected_Ok pcLocal pose ix r ri r1 :
  store_selected pcLocal pose ix r ri = Ok r1 →
  ∃ i q, ix !! ri = Some i ∧ pcLocal !! i = Some q ∧ ri < length (locals r) ∧
    r1 = lambdaKeepBBox
           (set_locals (<[ri := composePoint pose q]> (locals r)) r)
           (composePoint pose q).
Proof.
  unfold store_selected, transform_point. intros Hs.
  destruct (ix !! ri) as [i|] eqn:Hi; [|discriminate].
  destruct (pcLocal !! i) as [q|] eqn:Hq; [|discriminate].
  destruct (Nat.ltb_spec ri (length (locals r))) as [Hlt|]; [|discriminate].
  injection Hs as <-. exists i, q. auto.
Qed.

(** The loop over the positions [a], ..., [a + k - 1]: what it stores, what
    it leaves, and what it makes of the bounding box. *)
Lemma store_loop pcLocal pose ix k : ∀ a r r',
  for_each (store_selected pcLocal pose ix) (seq a k) r = Ok r' →
  idxs r' = idxs r ∧
  length (locals r') = length (locals r) ∧
  (∀ ri, ri < a ∨ a + k ≤ ri → locals r' !! ri = locals r !! ri) ∧
  (∀ ri, a ≤ ri < a + k →
     ∃ i q, ix !! ri = Some i ∧ pcLocal !! i = Some q ∧
            locals r' !! ri = Some (composePoint pose q)) ∧
  (f_ltb_strict →
     (∀ g, inside_bbox (localMin r) (localMax r) g →
           inside_bbox (localMin r') (localMax r') g) ∧
     (∀ ri g, a ≤ ri < a + k → locals r' !! ri = Some g →
              inside_bbox (localMin r') (localMax r') g)).
Proof.
  induction k as [|k IH]; intros a r r' Hl; simpl in Hl.
  - injection Hl as <-. split; [reflexivity|]. split; [reflexivity|].
    split; [reflexivity|]. split; [intros; lia|]. intros _. split; [auto|intros; lia].
  - inv_bind Hl.
    apply store_selected_Ok in Ha as (i & q & Hi & Hq & Hlt & ->).
    set (g := composePoint pose q) in *.
    set (r1 := lambdaKeepBBox (set_locals (<[a := g]> (locals r)) r) g) in *.
    destruct (IH (S a) r1 r' Hl) as (Hidx & Hlen & Hout & Hin & Hbox).
    assert (Hlen1 : length (locals r1) = length (locals r))
      by (simpl; apply length_insert).
    assert (Hat : locals r' !! a = Some g).
    { rewrite Hout by lia. simpl. apply list_lookup_insert_eq. assumption. }
    split; [exact Hidx|]. split; [lia|]. split; [|split].
    + intros ri Hri. rewrite Hout by lia. simpl.
      apply list_lookup_insert_ne. lia.
    + intros ri Hri. destruct (decide (ri = a)) as [->|Hne].
      * exists i, q. auto.
      * apply Hin. lia.
    + intros Hs. destruct (Hbox Hs) as [Hkeep Hnew].
      destruct (lambdaKeepBBox_inside (set_locals (<[a := g]> (locals r)) r) g Hs)
        as [Hkeep1 Hself].
      split.
      * intros g0 Hg0. apply Hkeep. apply Hkeep1. exact Hg0.
      * intros ri g0 Hri Hg0. destruct (decide (ri = a)) as [->|Hne].
        -- rewrite Hat in Hg0. injection Hg0 as <-. apply Hkeep. exact Hself.
        -- apply (Hnew ri); [lia | assumption].
Qed.

(** A coordinate of a corner, through the loop: it is the one of before or
    that coordinate of a point stored by the loop. *)
Lemma store_loop_corner pcLocal pose ix
    (c : TransformedLocalPointCloud → float) (sel : TPoint3Df → float) k :
  (∀ r v, c (lambdaKeepBBox r v) = c r ∨ c (lambdaKeepBBox r v) = sel v) →
  (∀ x r, c (set_locals x r) = c r) →
  ∀ a r r',
    for_each (store_selected pcLocal pose ix) (seq a k) r = Ok r' →
    c r' = c r ∨
    ∃ ri g, a ≤ ri < a + k ∧ locals r' !! ri = Some g ∧ c r' = sel g.
Proof.
  intros Hbox Hset. induction k as [|k IH]; intros a r r' Hl.
  - simpl in Hl. injection Hl as <-. auto.
  - pose proof (store_loop _ _ _ _ _ _ _ Hl) as (_ & _ & _ & Hin & _).
    simpl in Hl. inv_bind Hl.
    pose proof (store_loop _ _ _ _ _ _ _ Hl) as (_ & _ & Hout & _ & _).
    apply store_selected_Ok in Ha as (i & q & Hi & Hq & Hlt & ->).
    destruct (IH (S a) _ r' Hl) as [Hsame|(ri & g & Hri & Hg & Hc)].
    + rewrite Hsame.
      destruct (Hbox (set_locals (<[a := composePoint pose q]> (locals r)) r)
                     (composePoint pose q)) as [-> | ->].
      * left. apply Hset.
      * right. exists a, (composePoint pose q). split; [lia|]. split; [|reflexivity].
        rewrite Hout by lia. simpl. apply list_lookup_insert_eq. assumption.
    + right. exists ri, g. split; [lia|]. auto.
Qed.

(** Both branches of [transform_local_to_global] are the loop
    [store_selected] over the positions of an output of the size of the
    list of indices, from a fresh bounding box. *)
Lemma transform_is_store_loop pcLocal pose maxLocalPoints seed now :
  ∃ ix r0,
    transform_local_to_global pcLocal pose maxLocalPoints seed now
      = for_each (store_selected pcLocal pose ix) (seq 0 (length (locals r0))) r0 ∧
    localMin r0 = mkPoint f_bbox_min0 f_bbox_min0 f_bbox_min0 ∧
    localMax r0 = mkPoint f_bbox_max0 f_bbox_max0 f_bbox_max0 ∧
    ((Nat.eqb maxLocalPoints 0 || Nat.leb (length pcLocal) maxLocalPoints = true ∧
      ix = seq 0 (length pcLocal) ∧ idxs r0 = None ∧
      length (locals r0) = length pcLocal)
     ∨ (Nat.eqb maxLocalPoints 0 || Nat.leb (length pcLocal) maxLocalPoints = false ∧
        ix = shuffle (to_unsigned (if negb (Z.eqb seed 0) then seed else now))
                     (seq 0 maxLocalPoints) ∧
        idxs r0 = Some ix ∧ length (locals r0) = maxLocalPoints)).
Proof.
  unfold transform_local_to_global.
  destruct (Nat.eqb maxLocalPoints 0 || Nat.leb (length pcLocal) maxLocalPoints)
    eqn:Hall.
  - exists (seq 0 (length pcLocal)),
      (set_locals (resize (length pcLocal) (mkPoint f_zero f_zero f_zero) [])
                  TransformedLocalPointCloud_new).
    split; [|split; [|split]].
    2-3: reflexivity.
    2:{ left. split; [reflexivity|]. split; [reflexivity|]. split; [reflexivity|].
        cbn [locals set_locals]. apply length_resize. }
    cbn [locals set_locals]. rewrite length_resize.
    apply for_each_ext. intros r i Hi. unfold store_selected.
    apply elem_of_seq in Hi. rewrite lookup_seq_lt by lia. reflexivity.
  - exists (shuffle (to_unsigned (if negb (Z.eqb seed 0) then seed else now))
                    (seq 0 maxLocalPoints)),
      (set_locals (resize maxLocalPoints (mkPoint f_zero f_zero f_zero) [])
         (set_idxs
            (Some (shuffle (to_unsigned (if negb (Z.eqb seed 0) then seed else now))
                           (seq 0 maxLocalPoints)))
            TransformedLocalPointCloud_new)).
    split; [|split; [|split]].
    2-3: reflexivity.
    2:{ right. split; [reflexivity|]. split; [reflexivity|]. split; [reflexivity|].
        cbn [locals set_locals]. apply length_resize. }
    cbn [locals set_locals]. rewrite length_resize. reflexivity.
Qed.

(** X19. When [maxLocalPoints] is 0 or the local cloud has no more points
    than it, [transform_local_to_global] returns, selects no indices, and
    the output holds the composition of the pose with every local point, in
    the order of the cloud; neither the seed nor the clock is looked at. *)
Theorem transform_all_points pcLocal pose maxLocalPoints seed now :
  maxLocalPoints = 0 ∨ length pcLocal ≤ maxLocalPoints →
  ∃ r,
    transform_local_to_global pcLocal pose maxLocalPoints seed now = Ok r ∧
    idxs r = None ∧
    locals r = composePoint pose <$> pcLocal.
Proof.
  intros Hall.
  destruct (transform_is_store_loop pcLocal pose maxLocalPoints seed now)
    as (ix & r0 & Heq & _ & _ & [(_ & -> & Hidx & Hlen)|(Hsub & _)]).
  2:{ exfalso. apply orb_false_iff in Hsub as [Hz Hle].
      apply Nat.eqb_neq in Hz. apply Nat.leb_gt in Hle. lia. }
  destruct (subsample_loop pcLocal pose (seq 0 (length pcLocal))
              (length (locals r0)) 0 r0) as (r & Hr & _).
  { rewrite length_seq. lia. }
  { rewrite length_seq. exact Hlen. }
  { intros i Hi. apply elem_of_seq in Hi. lia. }
  exists r. rewrite Heq. split; [exact Hr|].
  destruct (store_loop _ _ _ _ _ _ _ Hr) as (Hi & Hl & _ & Hin & _).
  split; [congruence|].
  apply list_eq. intros ri. rewrite list_lookup_fmap.
  destruct (decide (ri < length pcLocal)) as [Hlt|Hge].
  - destruct (Hin ri) as (i & q & Hix & Hq & Hloc); [lia|].
    rewrite lookup_seq_lt in Hix by lia. injection Hix as <-.
    rewrite Hloc, Hq. reflexivity.
  - rewrite !lookup_ge_None_2 by lia. reflexivity.
Qed.

(** X20. When the local cloud has more points than a non-zero
    [maxLocalPoints], the indices are the shuffle, seeded by the low 32 bits
    of the seed (of the clock for the seed 0), of the indices below
    [maxLocalPoints], and the output keeps their order: its point at a
    position is the composition of the pose with the local point whose
    index is at that position. *)
Theorem transform_subsample_keeps_order pcLocal pose maxLocalPoints seed now :
  shuffle_permutes →
  maxLocalPoints ≠ 0 →
  maxLocalPoints < length pcLocal →
  ∃ r ix,
    transform_local_to_global pcLocal pose maxLocalPoints seed now = Ok r ∧
    idxs r = Some ix ∧
    ix = shuffle (to_unsigned (if negb (Z.eqb seed 0) then seed else now))
                 (seq 0 maxLocalPoints) ∧
    length (locals r) = length ix ∧
    ∀ ri i, ix !! ri = Some i →
            locals r !! ri = composePoint pose <$> pcLocal !! i.
Proof.
  intros Hperm Hnz Hlt.
  destruct (transform_is_store_loop pcLocal pose maxLocalPoints seed now)
    as (ix & r0 & Heq & _ & _ & [(Hall & _)|(_ & Hix & Hidx & Hlen)]).
  { exfalso. apply orb_true_iff in Hall as [Hz|Hle].
    - apply Nat.eqb_eq in Hz. lia.
    - apply Nat.leb_le in Hle. lia. }
  assert (Hp : ix ≡ₚ seq 0 maxLocalPoints) by (rewrite Hix; apply Hperm).
  assert (Hlix : length ix = maxLocalPoints) by (rewrite Hp; apply length_seq).
  destruct (subsample_loop pcLocal pose ix (length (locals r0)) 0 r0)
    as (r & Hr & _); [lia | lia | |].
  { intros i Hi. rewrite Hp in Hi. apply elem_of_seq in Hi. lia. }
  exists r, ix. rewrite Heq. split; [exact Hr|].
  destruct (store_loop _ _ _ _ _ _ _ Hr) as (Hi & Hl & _ & Hin & _).
  split; [congruence|]. split; [exact Hix|]. split; [lia|].
  intros ri i Hri.
  assert (ri < length ix) by (apply lookup_lt_is_Some; eauto).
  destruct (Hin ri) as (i' & q & Hix' & Hq & Hloc); [lia|].
  rewrite Hri in Hix'. injection Hix' as <-. rewrite Hloc, Hq. reflexivity.
Qed.

(** X21. When [<] on the coordinates is a strict order, the bounding box
    that [transform_local_to_global] returns contains every point of the
    output, and each coordinate of its two corners is the initial value or
    that coordinate of a point of the output: the box is the box of the
    points that are emitted, and of no other. *)
Theorem transform_bounding_box pcLocal pose maxLocalPoints seed now r :
  f_ltb_strict →
  transform_local_to_global pcLocal pose maxLocalPoints seed now = Ok r →
  (∀ g, g ∈ locals r → inside_bbox (localMin r) (localMax r) g) ∧
  corner_attained (px (localMin r)) f_bbox_min0 px (locals r) ∧
  corner_attained (py (localMin r)) f_bbox_min0 py (locals r) ∧
  corner_attained (pz (localMin r)) f_bbox_min0 pz (locals r) ∧
  corner_attained (px (localMax r)) f_bbox_max0 px (locals r) ∧
  corner_attained (py (localMax r)) f_bbox_max0 py (locals r) ∧
  corner_attained (pz (localMax r)) f_bbox_max0 pz (locals r).
Proof.
  intros Hs Ht.
  destruct (transform_is_store_loop pcLocal pose maxLocalPoints seed now)
    as (ix & r0 & Heq & Hmin & Hmax & _).
  rewrite Heq in Ht.
  destruct (store_loop _ _ _ _ _ _ _ Ht) as (_ & Hl & _ & _ & Hbox).
  destruct (Hbox Hs) as [_ Hnew].
  split.
  { intros g Hg. apply list_elem_of_lookup in Hg as [ri Hri].
    apply (Hnew ri); [|assumption].
    apply lookup_lt_Some in Hri. lia. }
  assert (Hcorner : ∀ (c : TransformedLocalPointCloud → float) sel c0,
            (∀ r v, c (lambdaKeepBBox r v) = c r ∨ c (lambdaKeepBBox r v) = sel v) →
            (∀ x r, c (set_locals x r) = c r) →
            c r0 = c0 → corner_attained (c r) c0 sel (locals r)).
  { intros c sel c0 Hb Hset Hc0.
    destruct (store_loop_corner _ _ _ c sel _ Hb Hset _ _ _ Ht)
      as [Hsame|(ri & g & _ & Hg & Hc)].
    - left. congruence.
    - right. exists g. split; [|assumption].
      apply list_elem_of_lookup. eauto. }
  repeat split.
  - apply (Hcorner (λ r, px (localMin r)) px); [|reflexivity|by rewrite Hmin].
    intros r1 v. simpl. apply keep_min_cases.
  - apply (Hcorner (λ r, py (localMin r)) py); [|reflexivity|by rewrite Hmin].
    intros r1 v. simpl. apply keep_min_cases.
  - apply (Hcorner (λ r, pz (localMin r)) pz); [|reflexivity|by rewrite Hmin].
    intros r1 v. simpl. apply keep_min_cases.
  - apply (Hcorner (λ r, px (localMax r)) px); [|reflexivity|by rewrite Hmax].
    intros r1 v. simpl. apply keep_max_cases.
  - apply (Hcorner (λ r, py (localMax r)) py); [|reflexivity|by rewrite Hmax].
    intros r1 v. simpl. apply keep_max_cases.
  - apply (Hcorner (λ r, pz (localMax r)) pz); [|reflexivity|by rewrite Hmax].
    intros r1 v. simpl. apply keep_max_cases.
Qed.

(** X22. The seed is narrowed to [unsigned int] before it seeds the
    engine: two non-zero seeds with the same low 32 bits give the same
    result, at any two readings of the clock. *)
Theorem transform_uses_low_bits_of_seed pcLocal pose maxLocalPoints
    seed1 seed2 now1 now2 :
  seed1 ≠ 0%Z → seed2 ≠ 0%Z →
  (seed1 mod 2 ^ 32 = seed2 mod 2 ^ 32)%Z →
  transform_local_to_global pcLocal pose maxLocalPoints seed1 now1
    = transform_local_to_global pcLocal pose maxLocalPoints seed2 now2.
Proof.
  intros Hs1 Hs2 Hmod. unfold transform_local_to_global, to_unsigned.
  destruct (Z.eqb_spec seed1 0) as [|_]; [contradiction|].
  destruct (Z.eqb_spec seed2 0) as [|_]; [contradiction|].
  simpl. rewrite Hmod. reflexivity.
Qed.

End TransformMore.

(** ** Matcher_Points_Base::initializeLayerWeights *)

Section InitWeights.
Context `{Scalar}.

(** The loop over entries that all hold a double, with distinct names:
    every entry is inserted, and the other names keep their weight. *)
Lemma fill_weights_doubles entries : ∀ w0,
  NoDup (entries.*1) →
  (∀ kv, kv ∈ entries → kv.2 ≠ AnyOther) →
  ∃ w, fill_weights entries w0 = (w, Returned) ∧
    ∀ name d, w !! name = Some d ↔
      (name, AnyDouble d) ∈ entries ∨ ((name ∉ entries.*1) ∧ w0 !! name = Some d).
Proof.
  induction entries as [|[ly v] entries IH]; intros w0 Hnd Hall.
  - exists w0. split; [reflexivity|]. intros name d. split.
    + intros Hw. right. split; [apply not_elem_of_nil | assumption].
    + intros [Hin|[_ Hw]]; [inversion Hin | assumption].
  - destruct v as [x|]; [|exfalso; apply (Hall (ly, AnyOther)); [left | reflexivity]].
    rewrite fmap_cons in Hnd. apply NoDup_cons in Hnd as [Hnotin Hnd].
    destruct (IH (<[ly := x]> w0) Hnd) as (w & Hw & Hchar).
    { intros kv Hin. apply Hall. by right. }
    exists w. split; [exact Hw|]. intros name d. rewrite Hchar. simpl.
    rewrite !elem_of_cons. split.
    + intros [Hin|[Hno Hlook]]; [auto|].
      destruct (decide (ly = name)) as [->|Hne].
      * rewrite lookup_insert_eq in Hlook. injection Hlook as ->. auto.
      * rewrite lookup_insert_ne in Hlook by assumption. right.
        split; [|assumption]. intros [Heq|Hin]; [congruence | contradiction].
    + intros [[Heq|Hin]|[Hno Hlook]].
      * injection Heq as -> ->. right. split; [assumption|].
        apply lookup_insert_eq.
      * auto.
      * right. split; [tauto|]. rewrite lookup_insert_ne; [assumption|].
        intros ->. tauto.
Qed.

(** The loop stops at the first entry that does not hold a double. *)
Lemma fill_weights_stops entries : ∀ w0 w outcome,
  fill_weights entries w0 = (w, outcome) →
  (outcome = Returned ∧ ∀ kv, kv ∈ entries → kv.2 ≠ AnyOther)
  ∨ ∃ pre key post,
      entries = pre ++ (key, AnyOther) :: post ∧
      (∀ kv, kv ∈ pre → kv.2 ≠ AnyOther) ∧
      outcome = ThrewBadAnyCast key ∧
      fill_weights pre w0 = (w, Returned).
Proof.
  induction entries as [|[ly v] entries IH]; intros w0 w outcome Hf.
  - injection Hf as <- <-. left. split; [reflexivity|]. intros kv Hin. inversion Hin.
  - destruct v as [x|]; simpl in Hf.
    + destruct (IH _ _ _ Hf) as [[-> Hall]|(pre & key & post & -> & Hpre & -> & Hfill)].
      * left. split; [reflexivity|]. intros kv Hin.
        apply elem_of_cons in Hin as [->|Hin]; [discriminate | auto].
      * right. exists ((ly, AnyDouble x) :: pre), key, post.
        split; [reflexivity|]. split; [|split; [reflexivity | exact Hfill]].
        intros kv Hin. apply elem_of_cons in Hin as [->|Hin]; [discriminate | auto].
    + injection Hf as <- <-. right. exists [], ly, entries.
      split; [reflexivity|]. split; [intros kv Hin; inversion Hin|].
      split; reflexivity.
Qed.

(** X23. [initializeLayerWeights] returns on a map whose values all hold a
    double; the weights are then those of the map and nothing else:
    whatever the matcher held before is gone. *)
Theorem initializeLayerWeights_loads_the_map entries old :
  NoDup (entries.*1) →
  (∀ kv, kv ∈ entries → kv.2 ≠ AnyOther) →
  ∃ w, initializeLayerWeights (ParamMap entries) old = (w, Returned) ∧
       ∀ name d, w !! name = Some d ↔ (name, AnyDouble d) ∈ entries.
Proof.
  intros Hnd Hall. unfold initializeLayerWeights.
  destruct (fill_weights_doubles entries ∅ Hnd Hall) as (w & Hw & Hchar).
  exists w. split; [exact Hw|]. intros name d. rewrite Hchar. split; [|auto].
  intros [Hin|[_ Hempty]]; [assumption|]. rewrite lookup_empty in Hempty. discriminate.
Qed.

(** X24. A call of [initializeLayerWeights] that throws does not leave the
    weights as they were: on a node that is not a map they are empty, and
    on a map with a value that is not a double they hold the entries that
    come before the first such value, and no other. *)
Theorem initializeLayerWeights_throws p old w outcome :
  initializeLayerWeights p old = (w, outcome) →
  outcome ≠ Returned →
  (p = ParamNotMap ∧ outcome = ThrewNotMap ∧ w = ∅)
  ∨ ∃ pre key post,
      p = ParamMap (pre ++ (key, AnyOther) :: post) ∧
      (∀ kv, kv ∈ pre → kv.2 ≠ AnyOther) ∧
      outcome = ThrewBadAnyCast key ∧
      (NoDup (pre.*1) →
       ∀ name d, w !! name = Some d ↔ (name, AnyDouble d) ∈ pre).
Proof.
  unfold initializeLayerWeights. intros Hi Hne.
  destruct p as [entries|].
  - right. destruct (fill_weights_stops _ _ _ _ Hi)
      as [[-> _]|(pre & key & post & -> & Hpre & -> & Hfill)]; [contradiction|].
    exists pre, key, post. split; [reflexivity|]. split; [assumption|].
    split; [reflexivity|]. intros Hnd name d.
    destruct (fill_weights_doubles pre ∅ Hnd Hpre) as (w' & Hw' & Hchar).
    rewrite Hfill in Hw'. injection Hw' as <-. rewrite Hchar. split; [|auto].
    intros [Hin|[_ Hempty]]; [assumption|].
    rewrite lookup_empty in Hempty. discriminate.
  - injection Hi as <- <-. left. auto.
Qed.

End InitWeights.

(** ** The Horn iteration and the fields of the state *)

Section HornFrame.
Context `{PoseOps} {WP : Type} `{!HornCollaborators WP}.

(** A property of the state that [runMatchers] keeps and that does not
    depend on [currentPairings] is kept by the Horn iteration. *)
Lemma Horn_state_inv (P : ICP_State → Prop) :
  (∀ s s' prs, runMatchers s = Ok (s', prs) → P s → P s') →
  (∀ x s, P s → P (set_currentPairings x s)) →
  ∀ s (q : Parameters WP) s' it,
    Horn_impl_ICP_iteration s q = Ok (s', it) → P s → P s'.
Proof.
  intros Hrun Hset s q s' it. unfold Horn_impl_ICP_iteration. intros Hh HP.
  do 3 inv_bind Hh. inv_bind Hh. destruct a2 as [s1 prs].
  apply Hrun in Ha2; [|assumption].
  destruct (Pairings_empty prs || Nat.ltb (length (paired_points prs)) 3).
  - injection Hh as <- _. auto.
  - inv_bind Hh. injection Hh as <- _. auto.
Qed.
End HornFrame.

(** ** The further properties on concrete inputs *)

Section MoreExamples.
Import Lattice Matcher_Points_Base.
Local Open Scope Z_scope.

Lemma five_state_prepared :
  is_Ok (prepareMatchingParams five_state (weighted 2)) = true.
Proof. vm_compute. reflexivity. Qed.

Lemma horn_keeps (P : ICP_State → Prop) target :
  (∀ x s, P s → P (set_mres x s)) →
  (∀ x s, P s → P (set_currentPairings x s)) →
  ∀ s (q : Parameters unit) s' it,
    impl_ICP_iteration (ICP_Algorithm := horn target) s q = Ok (s', it) →
    P s → P s'.
Proof.
  intros Hm Hc. apply (Horn_state_inv (HornCollaborators0 := collaborators target) P);
    [|exact Hc].
  intros s s' prs Hr HP. unfold runMatchers in Hr. simpl in Hr.
  unfold run_by_index in Hr. injection Hr as <- _. auto.
Qed.

Lemma horn_silent_keeps (P : ICP_State → Prop) target :
  (∀ x s, P s → P (set_currentPairings x s)) →
  ∀ s (q : Parameters unit) s' it,
    impl_ICP_iteration (ICP_Algorithm := horn_silent target) s q = Ok (s', it) →
    P s → P s'.
Proof.
  intros Hc. unfold horn_silent.
  apply (Horn_state_inv P); [|exact Hc].
  intros s s' prs Hr HP. unfold runMatchers in Hr. simpl in Hr.
  unfold run_silent, run_by_index in Hr. injection Hr as <- _. assumption.
Qed.

Lemma Z_ltb_strict : f_ltb_strict.
Proof.
  split; simpl.
  - apply Z.ltb_irrefl.
  - intros a b c Hab Hbc. apply Z.ltb_lt in Hab, Hbc. apply Z.ltb_lt. lia.
Qed.

(** X2 on the cloud of five points. *)
Lemma prepareMatchingParams_footprint_witness :
  ∃ state',
    prepareMatchingParams five_state (weighted 2) = Ok state' ∧
    is_Some (mps state' !! "raw"%string) ∧
    mres state' = mres five_state.
Proof.
  destruct (prepareMatchingParams five_state (weighted 2)) as [state'|e|u] eqn:Hp;
    [|vm_compute in Hp; discriminate..].
  destruct (prepareMatchingParams_footprint five_state (weighted 2) state' Hp)
    as (Hin & _ & _ & _ & _ & _ & _ & Hmres).
  exists state'. split; [reflexivity|]. split; [|exact Hmres].
  apply Hin. apply list_elem_of_here.
Defined.

(** X3 on a cloud with one layer and no weights. *)
Lemma unlisted_layer_gets_default_params_witness :
  ∃ state',
    NoDup (point_layers (pc1 state_a)).*1 ∧
    ("a"%string, Some triangle)
      ∈ point_layers (pc1 state_a) ∧
    "a"%string ≠ PT_LAYER_PLANE_CENTROIDS ∧
    weight_pt2pt_layers unweighted !! "a"%string = None ∧
    prepareMatchingParams state_a unweighted
      = Ok state' ∧
    mps state' !! "a"%string = Some TMatchingParams_default.
Proof.
  assert (Hnd : NoDup (point_layers (pc1 state_a)).*1)
    by apply NoDup_singleton.
  assert (Hin : ("a"%string, Some triangle)
                  ∈ point_layers (pc1 state_a))
    by apply list_elem_of_here.
  assert (Hne : "a"%string ≠ PT_LAYER_PLANE_CENTROIDS) by discriminate.
  assert (Hw : weight_pt2pt_layers unweighted !! "a"%string = None) by reflexivity.
  destruct (prepareMatchingParams state_a unweighted)
    as [state'|e|u] eqn:Hp; [|vm_compute in Hp; discriminate..].
  exists state'. split; [exact Hnd|]. split; [exact Hin|]. split; [exact Hne|].
  split; [exact Hw|]. split; [reflexivity|].
  exact (unlisted_layer_gets_default_params state_a unweighted state' "a" (Some triangle)
           Hnd Hin Hne Hw Hp).
Defined.

(** X4 on the cloud of five points. *)
Lemma ordinary_layer_params_witness :
  ∃ state' mp,
    NoDup (point_layers (pc1 five_state)).*1 ∧
    ("raw"%string, Some five_points) ∈ point_layers (pc1 five_state) ∧
    layer_is_counted (weighted 2) "raw" = true ∧
    prepareMatchingParams five_state (weighted 2) = Ok state' ∧
    mps state' !! "raw"%string = Some mp ∧
    maxDistForCorrespondence mp = 1 ∧ offset_other_map_points mp = 0.
Proof.
  assert (Hnd : NoDup (point_layers (pc1 five_state)).*1) by apply NoDup_singleton.
  assert (Hin : ("raw"%string, Some five_points) ∈ point_layers (pc1 five_state))
    by apply list_elem_of_here.
  assert (Hc : layer_is_counted (weighted 2) "raw" = true) by reflexivity.
  destruct (prepareMatchingParams five_state (weighted 2)) as [state'|e|u] eqn:Hp;
    [|vm_compute in Hp; discriminate..].
  destruct (ordinary_layer_params five_state (weighted 2) state' "raw" five_points
              Hnd Hin Hc Hp) as (mp & Hmp & Hd & _ & _ & _ & Ho).
  exists state', mp. auto 10.
Defined.

(** X5 on the triangle, with room for 500 pairs. *)
Lemma small_layer_is_not_decimated_witness :
  ∃ state' mp,
    NoDup (point_layers (pc1 triangles_state)).*1 ∧
    ("raw"%string, Some triangle) ∈ point_layers (pc1 triangles_state) ∧
    layer_is_counted (weighted 500) "raw" = true ∧
    (0 < maxPairsPerLayer (weighted 500))%nat ∧
    (length triangle ≤ maxPairsPerLayer (weighted 500))%nat ∧
    prepareMatchingParams triangles_state (weighted 500) = Ok state' ∧
    mps state' !! "raw"%string = Some mp ∧
    decimation_other_map_points mp = 1.
Proof.
  assert (Hnd : NoDup (point_layers (pc1 triangles_state)).*1)
    by apply NoDup_singleton.
  assert (Hin : ("raw"%string, Some triangle) ∈ point_layers (pc1 triangles_state))
    by apply list_elem_of_here.
  assert (Hc : layer_is_counted (weighted 500) "raw" = true) by reflexivity.
  assert (HK : (0 < maxPairsPerLayer (weighted 500))%nat) by (simpl; lia).
  assert (HN : (length triangle ≤ maxPairsPerLayer (weighted 500))%nat)
    by (simpl; lia).
  destruct (prepareMatchingParams triangles_state (weighted 500))
    as [state'|e|u] eqn:Hp; [|vm_compute in Hp; discriminate..].
  destruct (small_layer_is_not_decimated triangles_state (weighted 500) state'
              "raw" triangle Hnd Hin Hc HK HN Hp) as (mp & Hmp & Hdec & _).
  exists state', mp. auto 10.
Defined.

(** X6 on the cloud of five points. *)
Lemma layerOfLargestPc_is_largest_witness :
  ∃ state',
    prepareMatchingParams five_state (weighted 2) = Ok state' ∧
    layerOfLargestPc state' = "raw"%string.
Proof.
  destruct (prepareMatchingParams five_state (weighted 2)) as [state'|e|u] eqn:Hp;
    [|vm_compute in Hp; discriminate..].
  exists state'. split; [reflexivity|].
  destruct (layerOfLargestPc_is_largest five_state (weighted 2) state' Hp)
    as [(_ & Hzero)|(m & Hin & _)].
  - exfalso. specialize (Hzero "raw"%string five_points
                           ltac:(apply list_elem_of_here) eq_refl).
    discriminate Hzero.
  - apply list_elem_of_singleton in Hin. injection Hin as -> _. reflexivity.
Defined.

(** X7 on the two triangles: a counted layer has points, so the call
    throws. *)
Lemma align_without_iterations_witness :
  ∃ res state prev,
    maxIterations no_iteration = 0%nat ∧
    align_begin (cloud [("raw", triangle)]) (cloud [("raw", shifted_triangle)])
      (0, 0, 0) no_iteration = Ok (res, state, prev) ∧
    align (ICP_Algorithm0 := horn (5, -2, 0))
      (cloud [("raw", triangle)]) (cloud [("raw", shifted_triangle)])
      (0, 0, 0) no_iteration = Throw (OutOfRange "raw").
Proof.
  destruct (align_begin (H1 := PoseOps_Z) (cloud [("raw", triangle)])
              (cloud [("raw", shifted_triangle)]) (0, 0, 0) no_iteration)
    as [[[res state] prev]|e|u] eqn:Hb; [|vm_compute in Hb; discriminate..].
  exists res, state, prev. split; [reflexivity|]. split; [reflexivity|].
  rewrite (align_without_iterations (ICP_Algorithm0 := horn (5, -2, 0))
             _ _ _ no_iteration res state prev eq_refl Hb).
  vm_compute in Hb. injection Hb as _ <- _. reflexivity.
Defined.

(** X8 on the two triangles, with a matcher that records no result. *)
Lemma align_needs_matching_results_witness :
  ∃ res state prev,
    (∀ s (q : Parameters unit) s' it,
       impl_ICP_iteration (ICP_Algorithm := horn_silent (5, -2, 0)) s q = Ok (s', it) →
       mres s' = mres s ∧ layerOfLargestPc s' = layerOfLargestPc s) ∧
    align_begin (cloud [("raw", triangle)]) (cloud [("raw", shifted_triangle)])
      (0, 0, 0) (weighted 500) = Ok (res, state, prev) ∧
    layerOfLargestPc state ≠ EmptyString ∧
    is_Ok (align (ICP_Algorithm0 := horn_silent (5, -2, 0))
             (cloud [("raw", triangle)]) (cloud [("raw", shifted_triangle)])
             (0, 0, 0) (weighted 500)) = false.
Proof.
  assert (Hfr : ∀ s (q : Parameters unit) s' it,
            impl_ICP_iteration (ICP_Algorithm := horn_silent (5, -2, 0)) s q
              = Ok (s', it) →
            mres s' = mres s ∧ layerOfLargestPc s' = layerOfLargestPc s).
  { intros s q s' it Hi.
    apply (horn_silent_keeps
             (λ x, mres x = mres s ∧ layerOfLargestPc x = layerOfLargestPc s)
             _ ltac:(auto) _ _ _ _ Hi). auto. }
  destruct (align_begin (H1 := PoseOps_Z) (cloud [("raw", triangle)])
              (cloud [("raw", shifted_triangle)]) (0, 0, 0) (weighted 500))
    as [[[res state] prev]|e|u] eqn:Hb; [|vm_compute in Hb; discriminate..].
  assert (Hne : layerOfLargestPc state ≠ EmptyString).
  { vm_compute in Hb. injection Hb as _ <- _. discriminate. }
  exists res, state, prev. split; [exact Hfr|]. split; [reflexivity|].
  split; [exact Hne|].
  exact (align_needs_matching_results (ICP_Algorithm0 := horn_silent (5, -2, 0))
           _ _ _ _ res state prev Hfr Hb Hne).
Defined.

(** X9 on two clouds of points without planes and without weights. *)
Lemma align_rejects_unweighted_points_witness :
  (∀ kv, kv ∈ point_layers (cloud [("raw", triangle)]) →
         weight_pt2pt_layers unweighted !! kv.1 = None) ∧
  planes (cloud [("raw", triangle)]) = [] ∧
  ∃ what,
    align (ICP_Algorithm0 := horn (0, 0, 0))
      (cloud [("raw", triangle)]) (cloud [("raw", triangle)]) (0, 0, 0) unweighted
      = Throw (AssertionFailed what).
Proof.
  assert (Hnone : ∀ kv, kv ∈ point_layers (cloud [("raw", triangle)]) →
                        weight_pt2pt_layers unweighted !! kv.1 = None)
    by (intros kv _; reflexivity).
  split; [exact Hnone|]. split; [reflexivity|].
  apply (align_rejects_unweighted_points (ICP_Algorithm0 := horn (0, 0, 0))).
  - exact Hnone.
  - left. reflexivity.
Defined.

(** X10 on the two triangles with the thresholds 0: three iterations, and
    [MaxIterations]. *)
Lemma align_never_stalls_without_threshold_witness :
  ∃ r,
    (∀ x : double, d_ltb (d_abs x) (minAbsStep_trans patient) = false) ∧
    align (ICP_Algorithm0 := horn (5, -2, 0))
      (cloud [("raw", triangle)]) (cloud [("raw", shifted_triangle)])
      (0, 0, 0) patient = Ok r ∧
    nIterations r = 3%nat ∧
    (terminationReason r = MaxIterations ∨ terminationReason r = NoPairings).
Proof.
  assert (Hth : ∀ x : double, d_ltb (d_abs x) (minAbsStep_trans patient) = false).
  { intros x. simpl. apply Z.ltb_ge. apply Z.abs_nonneg. }
  destruct (align (ICP_Algorithm0 := horn (5, -2, 0))
              (cloud [("raw", triangle)]) (cloud [("raw", shifted_triangle)])
              (0, 0, 0) patient) as [r|e|u] eqn:Ha; [|vm_compute in Ha; discriminate..].
  exists r. split; [exact Hth|]. split; [reflexivity|]. split.
  - vm_compute in Ha. injection Ha as <-. reflexivity.
  - exact (align_never_stalls_without_threshold (ICP_Algorithm0 := horn (5, -2, 0))
             _ _ _ patient r (or_introl Hth) Ha).
Defined.

(** X11 on two clouds of one point: one pairing, failure in the first
    pass. *)
Lemma align_first_pass_failure_witness :
  ∃ res state prev state' it,
    (0 < maxIterations (weighted 500))%nat ∧
    align_begin (cloud [("raw", one_point)]) (cloud [("raw", one_point)])
      (0, 0, 0) (weighted 500) = Ok (res, state, prev) ∧
    impl_ICP_iteration (ICP_Algorithm := horn (0, 0, 0)) state (weighted 500)
      = Ok (state', it) ∧
    success it = false ∧
    align (ICP_Algorithm0 := horn (0, 0, 0))
      (cloud [("raw", one_point)]) (cloud [("raw", one_point)])
      (0, 0, 0) (weighted 500)
    = Ok {| optimal_tf_mean := (0, 0, 0); optimal_scale := 1; nIterations := 0;
            terminationReason := NoPairings; goodness := 1 |}.
Proof.
  assert (Hmax : (0 < maxIterations (weighted 500))%nat) by (simpl; lia).
  assert (Hb : align_begin (H1 := PoseOps_Z) (cloud [("raw", one_point)])
                 (cloud [("raw", one_point)]) (0, 0, 0) (weighted 500)
               = Ok (Results_new, one_point_prepared, (0, 0, 0)))
    by (vm_compute; reflexivity).
  destruct (impl_ICP_iteration (ICP_Algorithm := horn (0, 0, 0))
              one_point_prepared (weighted 500)) as [[state' it]|e|u] eqn:Hi;
    [|vm_compute in Hi; discriminate..].
  assert (Hfail : success it = false)
    by (vm_compute in Hi; injection Hi as _ <-; reflexivity).
  exists Results_new, one_point_prepared, (0, 0, 0), state', it.
  split; [exact Hmax|]. split; [exact Hb|]. split; [exact Hi|].
  split; [exact Hfail|].
  rewrite (align_first_pass_failure (ICP_Algorithm0 := horn (0, 0, 0))
             _ _ _ (weighted 500) _ _ _ state' it Hmax Hb Hi Hfail).
  vm_compute in Hi. injection Hi as <- _. vm_compute. reflexivity.
Defined.

(** X12 on the two triangles. *)
Lemma align_pose_is_guess_or_candidate_witness :
  ∃ r,
    (∀ s (q : Parameters unit) s' it,
       impl_ICP_iteration (ICP_Algorithm := horn (5, -2, 0)) s q = Ok (s', it) →
       current_solution s' = current_solution s) ∧
    align (ICP_Algorithm0 := horn (5, -2, 0))
      (cloud [("raw", triangle)]) (cloud [("raw", shifted_triangle)])
      (0, 0, 0) (weighted 500) = Ok r ∧
    (optimal_tf_mean r = (0, 0, 0) ∨
     ∃ s (q : Parameters unit) s' it,
       impl_ICP_iteration (ICP_Algorithm := horn (5, -2, 0)) s q = Ok (s', it) ∧
       success it = true ∧ optimal_tf_mean r = new_solution it).
Proof.
  assert (Hfr : ∀ s (q : Parameters unit) s' it,
            impl_ICP_iteration (ICP_Algorithm := horn (5, -2, 0)) s q = Ok (s', it) →
            current_solution s' = current_solution s).
  { intros s q s' it Hi.
    apply (horn_keeps (λ x, current_solution x = current_solution s)
             _ ltac:(auto) ltac:(auto) _ _ _ _ Hi). reflexivity. }
  destruct (align (ICP_Algorithm0 := horn (5, -2, 0))
              (cloud [("raw", triangle)]) (cloud [("raw", shifted_triangle)])
              (0, 0, 0) (weighted 500)) as [r|e|u] eqn:Ha;
    [|vm_compute in Ha; discriminate..].
  exists r. split; [exact Hfr|]. split; [reflexivity|].
  exact (align_pose_is_guess_or_candidate (ICP_Algorithm0 := horn (5, -2, 0))
           _ _ _ (weighted 500) r Hfr Ha).
Defined.

(** X13 on two clouds with planes and no weights. *)
Lemma align_goodness_zero_without_points_witness :
  ∃ res state prev r,
    (∀ s (q : Parameters unit) s' it,
       impl_ICP_iteration (ICP_Algorithm := horn (0, 0, 0)) s q = Ok (s', it) →
       layerOfLargestPc s' = layerOfLargestPc s) ∧
    align_begin cloud_a cloud_a (0, 0, 0) unweighted = Ok (res, state, prev) ∧
    layerOfLargestPc state = EmptyString ∧
    align (ICP_Algorithm0 := horn (0, 0, 0)) cloud_a cloud_a (0, 0, 0) unweighted
      = Ok r ∧
    goodness r = d_zero.
Proof.
  assert (Hfr : ∀ s (q : Parameters unit) s' it,
            impl_ICP_iteration (ICP_Algorithm := horn (0, 0, 0)) s q = Ok (s', it) →
            layerOfLargestPc s' = layerOfLargestPc s).
  { intros s q s' it Hi.
    apply (horn_keeps (λ x, layerOfLargestPc x = layerOfLargestPc s)
             _ ltac:(auto) ltac:(auto) _ _ _ _ Hi). reflexivity. }
  destruct (align_begin (H1 := PoseOps_Z) cloud_a cloud_a (0, 0, 0) unweighted)
    as [[[res state] prev]|e|u] eqn:Hb; [|vm_compute in Hb; discriminate..].
  assert (Hempty : layerOfLargestPc state = EmptyString)
    by (vm_compute in Hb; injection Hb as _ <- _; reflexivity).
  destruct (align (ICP_Algorithm0 := horn (0, 0, 0)) cloud_a cloud_a (0, 0, 0)
              unweighted) as [r|e|u] eqn:Ha; [|vm_compute in Ha; discriminate..].
  exists res, state, prev, r. split; [exact Hfr|]. split; [reflexivity|].
  split; [exact Hempty|]. split; [reflexivity|].
  exact (align_goodness_zero_without_points (ICP_Algorithm0 := horn (0, 0, 0))
           _ _ _ unweighted res state prev r Hfr Hb Hempty Ha).
Defined.

(** X14 on the two triangles. *)
Lemma Horn_iteration_outcome_witness :
  ∃ s' it,
    Horn_impl_ICP_iteration (HornCollaborators0 := collaborators (5, -2, 0))
      triangles_state (weighted 500) = Ok (s', it) ∧
    new_scale it = d_one.
Proof.
  destruct (Horn_impl_ICP_iteration (HornCollaborators0 := collaborators (5, -2, 0))
              triangles_state (weighted 500)) as [[s' it]|e|u] eqn:Hh;
    [|vm_compute in Hh; discriminate..].
  exists s', it. split; [reflexivity|].
  destruct (Horn_iteration_outcome (HornCollaborators0 := collaborators (5, -2, 0))
              triangles_state (weighted 500) s' it Hh)
    as (s1 & prs & _ & _ & Hscale & _).
  exact Hscale.
Defined.

(** X15 on two clouds of planes alone. *)
Lemma Horn_align_throws_without_point_layers_witness :
  point_layers (cloud_with_planes []) = [] ∧
  (0 < maxIterations unweighted)%nat ∧
  ∃ what,
    align (ICP_Algorithm0 := horn (0, 0, 0))
      (cloud_with_planes []) (cloud_with_planes []) (0, 0, 0) unweighted
      = Throw (AssertionFailed what).
Proof.
  split; [reflexivity|]. split; [simpl; lia|].
  apply (Horn_align_throws_without_point_layers
           (HornCollaborators0 := collaborators (0, 0, 0))).
  - reflexivity.
  - simpl. lia.
Defined.

(** X17 on the two triangles. *)
Lemma match_returns_iff_witness :
  (∀ gl lc pose out, is_Ok (implMatchOneLayer gl lc pose out) = true) ∧
  is_Ok (match_ raw_weights (cloud [("raw", triangle)])
           (cloud [("raw", shifted_triangle)]) (0, 0, 0)) = true.
Proof.
  assert (Htotal : ∀ gl lc pose out, is_Ok (implMatchOneLayer gl lc pose out) = true)
    by (intros; reflexivity).
  split; [exact Htotal|].
  apply (match_returns_iff raw_weights _ _ _ Htotal).
  intros kv Hin _. apply list_elem_of_singleton in Hin. subst kv.
  split; discriminate.
Defined.

(** X18 on the two triangles. *)
Lemma match_records_are_well_formed_witness :
  ∃ out,
    appends_pairings ∧
    match_ raw_weights (cloud [("raw", triangle)])
      (cloud [("raw", shifted_triangle)]) (0, 0, 0) = Ok out ∧
    Z.of_nat (length (paired_points out)) < SIZE_MAX1 ∧
    (length (point_weights out) ≤ 1)%nat.
Proof.
  destruct (match_ raw_weights (cloud [("raw", triangle)])
              (cloud [("raw", shifted_triangle)]) ((0, 0, 0) : @CPose3D _ _ PoseOps_Z))
    as [out|e|u] eqn:Hm; [|vm_compute in Hm; discriminate..].
  assert (Hlt : Z.of_nat (length (paired_points out)) < SIZE_MAX1)
    by (vm_compute in Hm; injection Hm as <-; vm_compute; reflexivity).
  exists out. split; [exact by_index_appends|]. split; [reflexivity|].
  split; [exact Hlt|].
  exact (proj1 (match_records_are_well_formed raw_weights by_index_appends
                  _ _ _ out Hlt Hm)).
Defined.

(** X19 on the triangle, without a bound on the number of points. *)
Lemma transform_all_points_witness :
  (0%nat = 0%nat ∨ (length triangle ≤ 0)%nat) ∧
  ∃ r,
    transform_local_to_global triangle (1, 1, 1) 0 7 99 = Ok r ∧
    idxs r = None ∧
    locals r = composePoint (1, 1, 1) <$> triangle.
Proof.
  split; [left; reflexivity|].
  apply (transform_all_points (H1 := PoseOps_Z)). left. reflexivity.
Defined.

(** X20 on the triangle, with two points at most. *)
Lemma transform_subsample_keeps_order_witness :
  shuffle_permutes ∧ 2%nat ≠ 0%nat ∧ (2 < length triangle)%nat ∧
  ∃ r ix,
    transform_local_to_global triangle (1, 1, 1) 2 7 99 = Ok r ∧
    idxs r = Some ix ∧ length (locals r) = length ix.
Proof.
  split; [exact shuffle_rev_permutes|]. split; [discriminate|].
  split; [simpl; lia|].
  destruct (transform_subsample_keeps_order (H1 := PoseOps_Z) triangle (1, 1, 1)
              2 7 99 shuffle_rev_permutes ltac:(discriminate) ltac:(simpl; lia))
    as (r & ix & Hr & Hix & _ & Hlen & _).
  exists r, ix. auto.
Defined.

(** X21 on the triangle. *)
Lemma transform_bounding_box_witness :
  ∃ r,
    f_ltb_strict ∧
    transform_local_to_global triangle (1, 1, 1) 2 7 99 = Ok r ∧
    ∀ g, g ∈ locals r → inside_bbox (localMin r) (localMax r) g.
Proof.
  destruct (transform_local_to_global (H1 := PoseOps_Z) triangle (1, 1, 1) 2 7 99)
    as [r|e|u] eqn:Ht; [|vm_compute in Ht; discriminate..].
  exists r. split; [exact Z_ltb_strict|]. split; [reflexivity|].
  exact (proj1 (transform_bounding_box (H1 := PoseOps_Z) triangle (1, 1, 1) 2 7 99 r
                  Z_ltb_strict Ht)).
Defined.

(** X22 with the seeds 7 and 7 + 2^32. *)
Lemma transform_uses_low_bits_of_seed_witness :
  7 ≠ 0 ∧ 4294967303 ≠ 0 ∧ 7 mod 2 ^ 32 = 4294967303 mod 2 ^ 32 ∧
  transform_local_to_global triangle (1, 1, 1) 2 7 1
    = transform_local_to_global triangle (1, 1, 1) 2 4294967303 2.
Proof.
  split; [discriminate|]. split; [discriminate|]. split; [reflexivity|].
  apply (transform_uses_low_bits_of_seed (H1 := PoseOps_Z));
    [discriminate | discriminate | reflexivity].
Defined.

(** X23 on a node with two weights. *)
Lemma initializeLayerWeights_loads_the_map_witness :
  NoDup (good_entries.*1) ∧
  (∀ kv, kv ∈ good_entries → kv.2 ≠ AnyOther) ∧
  ∃ w,
    initializeLayerWeights good_node raw_weights = (w, Returned) ∧
    w !! "edges"%string = Some 2.
Proof.
  assert (Hnd : NoDup (good_entries.*1)).
  { simpl. apply NoDup_cons. split; [|apply NoDup_singleton].
    intros Hin. apply list_elem_of_singleton in Hin. discriminate. }
  assert (Hall : ∀ kv, kv ∈ good_entries → kv.2 ≠ AnyOther).
  { intros kv Hin. apply elem_of_cons in Hin as [->|Hin]; [discriminate|].
    apply list_elem_of_singleton in Hin. subst kv. discriminate. }
  split; [exact Hnd|]. split; [exact Hall|].
  destruct (initializeLayerWeights_loads_the_map good_entries raw_weights Hnd Hall)
    as (w & Hw & Hchar).
  exists w. split; [exact Hw|]. apply Hchar. left.
Defined.

(** X24 on a node whose second value is not a double. *)
Lemma initializeLayerWeights_throws_witness :
  ∃ w,
    initializeLayerWeights bad_node raw_weights = (w, ThrewBadAnyCast "planes") ∧
    ThrewBadAnyCast "planes" ≠ Returned ∧
    ∃ pre key post,
      bad_node = ParamMap (pre ++ (key, AnyOther) :: post) ∧
      (NoDup (pre.*1) →
       ∀ name d, w !! name = Some d ↔ (name, AnyDouble d) ∈ pre).
Proof.
  destruct (initializeLayerWeights bad_node raw_weights) as [w outcome] eqn:Hi.
  assert (Ho : outcome = ThrewBadAnyCast "planes")
    by (vm_compute in Hi; injection Hi as _ <-; reflexivity).
  subst outcome. exists w. split; [reflexivity|]. split; [discriminate|].
  destruct (initializeLayerWeights_throws bad_node raw_weights w _ Hi
              ltac:(discriminate))
    as [(Hp & _)|(pre & key & post & Hp & _ & _ & Hchar)]; [discriminate Hp|].
  exists pre, key, post. split; [exact Hp | exact Hchar].
Defined.


End MoreExamples.
